(** * RxCpp: the [maybe] slot, the distinct-until-changed observer and the
  fluent [Binder]

A shallow embedding of three pieces of the library:

- [rxcpp::util::detail::maybe<T>]        (Rx/v2/src/rxcpp/rx-util.hpp)
- [operators::detail::distinct_until_changed<T>]
                 (Rx/v2/src/rxcpp/operators/rx-distinct_until_changed.hpp)
- [rxcpp::Binder<Obj>] and the [from] overloads (Rx/CPP/src/cpprx/rx.hpp)

Member functions that mutate [*this] become functions from the old
object to the new one.  A call that may end in [abort()], or that may
leave by a C++ exception, returns a result type that says so. *)

From Stdlib Require Import ZArith Bool String.
From stdpp Require Import base option list gmap.

Local Open Scope Z_scope.

(* ===================================================================== *)
(** ** [maybe<T>] *)
(* ===================================================================== *)

Module Maybe.

(** A member function of [maybe] that reads the slot either returns or
  calls [abort()], which ends the program. *)
Inductive access (A : Type) : Type :=
| Got (a : A)
| Aborted.
Arguments Got {A} a.
Arguments Aborted {A}.

(** [bool is_set; aligned_storage<sizeof(T)> storage;]
  The raw storage holds a constructed [T] exactly while [is_set] is
  true (placement-new always precedes [is_set = true], the destructor
  call always follows [is_set = false]); otherwise its bytes carry no
  value, which the [unit] branch stands for. *)
Record maybe (T : Type) : Type := Build {
  is_set : bool;
  storage : if is_set then T else unit
}.
Arguments Build {T} is_set storage.
Arguments is_set {T} m.
Arguments storage {T} m.

Section Ops.
Context {T : Type}.

(** [maybe() : is_set(false) {}] *)
Definition default : maybe T := Build false tt.

(** [maybe(T value) : is_set(false) { new (&storage) T(value); is_set = true; }] *)
Definition of_value (value : T) : maybe T := Build true value.

(** [bool empty() const { return !is_set; }] *)
Definition empty (m : maybe T) : bool := negb (is_set m).

(** [size_t size() const { return is_set ? 1 : 0; }] *)
Definition size (m : maybe T) : nat := if is_set m then 1%nat else 0%nat.

(** [T* operator->() { if (!is_set) abort(); return reinterpret_cast<T*>(&storage); }]
    The pointer to the storage is rendered by the object it points to. *)
Definition op_arrow (m : maybe T) : access T :=
  match m with
  | Build true x => Got x
  | Build false _ => Aborted
  end.

(** [T& operator*() { if (!is_set) abort(); return *reinterpret_cast<T*>(&storage); }] *)
Definition op_star (m : maybe T) : access T :=
  match m with
  | Build true x => Got x
  | Build false _ => Aborted
  end.

(** [T& value() { if (!is_set) abort(); return *reinterpret_cast<T*>(&storage); }] *)
Definition value (m : maybe T) : access T :=
  match m with
  | Build true x => Got x
  | Build false _ => Aborted
  end.

(** [void reset() { if (is_set) { is_set = false; ptr->~T(); fill_n(..., 0); } }] *)
Definition reset (m : maybe T) : maybe T :=
  if is_set m then Build false tt else m.

(** [template<class U> void reset(U&& value)
      { reset(); new (&storage) T(forward<U>(value)); is_set = true; }] *)
Definition reset_value (v : T) (m : maybe T) : maybe T :=
  let m' := reset m in
  Build true v.

(** [~maybe() { reset(); }] *)
Definition destroy (m : maybe T) : maybe T := reset m.

(** Modelled from the spec: [maybe::get()] is called by
    [distinct_until_changed_observer::on_next] ([v != remembered.get()])
    but rx-util.hpp declares no such member.  The spec describes the
    value access of [maybe] as one that aborts on an invalid access, so
    [get] is taken to be one more accessor with the body of [value()]. *)
Definition get (m : maybe T) : access T :=
  match m with
  | Build true x => Got x
  | Build false _ => Aborted
  end.

End Ops.

End Maybe.

Import Maybe (maybe, access, Got, Aborted).

(* ===================================================================== *)
(** ** The observer contract *)
(* ===================================================================== *)

(** User code called from inside the library (here the item type's
    [operator!=]) either returns or throws. *)
Inductive raised (E A : Type) : Type :=
| Ret (a : A)
| Raise (e : E).
Arguments Ret {E A} a.
Arguments Raise {E A} e.

(** How a call into an observer ends: it returns, leaving the object in
    state [s]; or an exception [e] unwinds out of it, the object being in
    state [s] at that point; or the program is ended by [abort()]. *)
Inductive completion (E S : Type) : Type :=
| Done (s : S)
| Unwound (e : E) (s : S)
| Abort.
Arguments Done {E S} s.
Arguments Unwound {E S} e s.
Arguments Abort {E S}.

(** What an observer can be told. *)
Inductive notification (T E : Type) : Type :=
| Next (v : T)
| Error (e : E)
| Completed.
Arguments Next {T E} v.
Arguments Error {T E} e.
Arguments Completed {T E}.

(** The downstream [Subscriber] the operator is instantiated with: an
    object with state [D] and the three observer calls. *)
Class Subscriber (T E D : Type) : Type := {
  sub_on_next : T -> D -> D;
  sub_on_error : E -> D -> D;
  sub_on_completed : D -> D
}.

(** A downstream that writes down, in order, every call it receives. *)
#[export] Instance recorder (T E : Type) : Subscriber T E (list (notification T E)) := {
  sub_on_next v d := d ++ [Next v];
  sub_on_error e d := d ++ [Error e];
  sub_on_completed d := d ++ [Completed]
}.

(** The values among the recorded calls. *)
Definition values {T E : Type} (d : list (notification T E)) : list T :=
  omap (fun n => match n with Next v => Some v | _ => None end) d.

(** The errors among the recorded calls. *)
Definition errors {T E : Type} (d : list (notification T E)) : list E :=
  omap (fun n => match n with Error e => Some e | _ => None end) d.

(* ===================================================================== *)
(** ** [distinct_until_changed<T>] *)
(* ===================================================================== *)

Module DistinctUntilChanged.

Section Operator.
(** [source_value_type], [std::exception_ptr], [dest_type] and the item
    type's [operator!=]. *)
Context {T E D : Type} (ne : T -> T -> raised E bool) `{!Subscriber T E D}.

(** [dest_type dest; mutable maybe<source_value_type> remembered;] *)
Record distinct_until_changed_observer : Type := Observer {
  dest : D;
  remembered : maybe T
}.

(** [distinct_until_changed_observer(dest_type d) : dest(d) {}]:
    [remembered] is default-constructed. *)
Definition construct (d : D) : distinct_until_changed_observer :=
  {| dest := d; remembered := Maybe.default |}.

(** [if (remembered.empty() || v != remembered.get())
       { remembered.reset(v); dest.on_next(v); }]
    [||] evaluates its right operand only when the left one is false. *)
Definition on_next (v : T) (o : distinct_until_changed_observer)
  : completion E distinct_until_changed_observer :=
  let changed :=
    {| dest := sub_on_next v (dest o);
       remembered := Maybe.reset_value v (remembered o) |} in
  if Maybe.empty (remembered o) then Done changed
  else
    match Maybe.get (remembered o) with
    | Aborted => Abort
    | Got x =>
        match ne v x with
        | Raise e => Unwound e o
        | Ret true => Done changed
        | Ret false => Done o
        end
    end.

(** [void on_error(std::exception_ptr e) const { dest.on_error(e); }] *)
Definition on_error (e : E) (o : distinct_until_changed_observer)
  : distinct_until_changed_observer :=
  {| dest := sub_on_error e (dest o); remembered := remembered o |}.

(** [void on_completed() const { dest.on_completed(); }] *)
Definition on_completed (o : distinct_until_changed_observer)
  : distinct_until_changed_observer :=
  {| dest := sub_on_completed (dest o); remembered := remembered o |}.

(** The implicit destructor runs [~maybe()] on [remembered]. *)
Definition destroy (o : distinct_until_changed_observer)
  : distinct_until_changed_observer :=
  {| dest := dest o; remembered := Maybe.destroy (remembered o) |}.

(** [static subscriber<value_type, this_type> make(dest_type d)
       { return make_subscriber<value_type>(d, this_type(d)); }]
    [make_subscriber] is not among the sources; the subscriber it returns
    is taken to be the observer [this_type(d)] it is handed. *)
Definition make (d : D) : distinct_until_changed_observer := construct d.

(** [auto operator()(Subscriber dest) const
       { return distinct_until_changed_observer<Subscriber>::make(std::move(dest)); }] *)
Definition call (dest : D) : distinct_until_changed_observer := make dest.

(** One call from upstream. *)
Definition deliver (n : notification T E) (o : distinct_until_changed_observer)
  : completion E distinct_until_changed_observer :=
  match n with
  | Next v => on_next v o
  | Error e => Done (on_error e o)
  | Completed => Done (on_completed o)
  end.

(** A source making its calls one after the other.  A call that does not
    return ends the run: the exception reaches the source, or the program
    is gone. *)
Fixpoint feed (ns : list (notification T E)) (o : distinct_until_changed_observer)
  : completion E distinct_until_changed_observer :=
  match ns with
  | [] => Done o
  | n :: ns' =>
      match deliver n o with
      | Done o' => feed ns' o'
      | stopped => stopped
      end
  end.

(** The object left behind by a call, if the program is still there. *)
Definition after (c : completion E distinct_until_changed_observer)
  : option distinct_until_changed_observer :=
  match c with
  | Done o => Some o
  | Unwound _ o => Some o
  | Abort => None
  end.

(** *** Observer objects in memory

    Observer objects live at addresses.  [operator()] makes a new object
    for each subscriber it is applied to; a member function runs on the
    object at [this], reading and writing the members of that object. *)

(** [return distinct_until_changed_observer<Subscriber>::make(std::move(dest))]:
    the observer [this_type(d)], a new object at an address that holds no
    object yet. *)
Definition call_in (dest : D) (h : gmap nat distinct_until_changed_observer)
  : nat * gmap nat distinct_until_changed_observer :=
  let this := fresh (dom h) in
  (this, <[this := call dest]> h).

(** [operator()] applied to each subscriber in turn: the addresses of the
    observers made, one per activation, in the order of the subscribers. *)
Fixpoint activate (ds : list D) (h : gmap nat distinct_until_changed_observer)
  : list nat * gmap nat distinct_until_changed_observer :=
  match ds with
  | [] => ([], h)
  | d :: ds' =>
      let (this, h') := call_in d h in
      let (rest, h'') := activate ds' h' in
      (this :: rest, h'')
  end.

(** [on_next] run on the object at [this]: [remembered] is
    [this->remembered] and [dest] is [this->dest]. *)
Definition on_next_in (this : nat) (v : T) (h : gmap nat distinct_until_changed_observer)
  : completion E (gmap nat distinct_until_changed_observer) :=
  match h !! this with
  | None => Done h
  | Some o =>
      let changed :=
        <[this := {| dest := sub_on_next v (dest o);
                     remembered := Maybe.reset_value v (remembered o) |}]> h in
      if Maybe.empty (remembered o) then Done changed
      else
        match Maybe.get (remembered o) with
        | Aborted => Abort
        | Got x =>
            match ne v x with
            | Raise e => Unwound e h
            | Ret true => Done changed
            | Ret false => Done h
            end
        end
  end.

(** [on_error] run on the object at [this]. *)
Definition on_error_in (this : nat) (e : E) (h : gmap nat distinct_until_changed_observer)
  : gmap nat distinct_until_changed_observer :=
  match h !! this with
  | None => h
  | Some o => <[this := {| dest := sub_on_error e (dest o); remembered := remembered o |}]> h
  end.

(** [on_completed] run on the object at [this]. *)
Definition on_completed_in (this : nat) (h : gmap nat distinct_until_changed_observer)
  : gmap nat distinct_until_changed_observer :=
  match h !! this with
  | None => h
  | Some o => <[this := {| dest := sub_on_completed (dest o); remembered := remembered o |}]> h
  end.

(** One call from upstream into the object at [this]. *)
Definition deliver_in (this : nat) (n : notification T E)
    (h : gmap nat distinct_until_changed_observer)
  : completion E (gmap nat distinct_until_changed_observer) :=
  match n with
  | Next v => on_next_in this v h
  | Error e => Done (on_error_in this e h)
  | Completed => Done (on_completed_in this h)
  end.

(** The program while several sources run: the observer objects, and for
    each activation whose source had an exception come back from a call,
    that exception. *)
Record world : Type := World {
  objects : gmap nat distinct_until_changed_observer;
  unwound : gmap nat E
}.

(** The source of activation [i], whose observer is at address
    [acts !! i], makes the call [n], unless an exception has already come
    back to it.  [None]: the program was ended by [abort()]. *)
Definition push (acts : list nat) (i : nat) (n : notification T E) (w : world)
  : option world :=
  match acts !! i with
  | None => Some w
  | Some this =>
      match unwound w !! i with
      | Some _ => Some w
      | None =>
          match deliver_in this n (objects w) with
          | Done h' => Some (World h' (unwound w))
          | Unwound e h' => Some (World h' (<[i := e]> (unwound w)))
          | Abort => None
          end
      end
  end.

(** An interleaving of the calls of all sources. *)
Fixpoint interleave (acts : list nat) (s : list (nat * notification T E)) (w : world)
  : option world :=
  match s with
  | [] => Some w
  | (i, n) :: s' =>
      match push acts i n w with
      | Some w' => interleave acts s' w'
      | None => None
      end
  end.

(** How activation [i] stands: its observer object, and whether its
    source is still calling. *)
Definition outcome (acts : list nat) (w : world) (i : nat)
  : option (completion E distinct_until_changed_observer) :=
  match acts !! i with
  | None => None
  | Some this =>
      match objects w !! this with
      | None => None
      | Some o =>
          Some (match unwound w !! i with
                | Some e => Unwound e o
                | None => Done o
                end)
      end
  end.

(** The calls [ns] made to an activation that was left as [c]: nothing
    more happens once a call has not returned. *)
Definition resume (ns : list (notification T E))
    (c : completion E distinct_until_changed_observer)
  : completion E distinct_until_changed_observer :=
  match c with
  | Done o => feed ns o
  | stopped => stopped
  end.

(** The calls of an interleaving that are addressed to activation [i]. *)
Definition calls_to (i : nat) (s : list (nat * notification T E))
  : list (notification T E) :=
  omap (fun jn => if decide (fst jn = i) then Some (snd jn) else None) s.

End Operator.

Arguments distinct_until_changed_observer T D : clear implicits.
Arguments Observer {T D} dest remembered.

(** What a recording downstream has seen once a fresh activation has been
    fed [ns]; [None] if the program was aborted on the way. *)
Definition observed {T E : Type} (ne : T -> T -> raised E bool)
    (ns : list (notification T E)) : option (list (notification T E)) :=
  dest <$> after (feed ne ns (call [])).

(** The value a slot holds, if any. *)
Definition held {T : Type} (m : maybe T) : option T :=
  match Maybe.get m with
  | Got x => Some x
  | Aborted => None
  end.

(** Every value of [out] differs, under [ne], from the one before it; the
    first one from [last], when there is a [last]. *)
Fixpoint changes {T E : Type} (ne : T -> T -> raised E bool)
    (last : option T) (out : list T) : Prop :=
  match out with
  | [] => True
  | b :: out' =>
      match last with
      | Some a => ne b a = Ret true
      | None => True
      end /\ changes ne (Some b) out'
  end.

End DistinctUntilChanged.

(* ===================================================================== *)
(** ** Item types used in the examples *)
(* ===================================================================== *)

(** [int]: [v != x] compares and never throws. *)
Definition Z_ne (v x : Z) : raised string bool := Ret (negb (v =? x)).

(** An item type whose [operator!=] throws when the right operand is 13. *)
Definition fragile_ne (v x : Z) : raised string bool :=
  if x =? 13 then Raise "operator!= failed"%string else Ret (negb (v =? x)).

(* ===================================================================== *)
(** ** [Binder<Obj>] and [from] *)
(* ===================================================================== *)

Module Pipeline.

(** Code that runs in a program whose state is [W]: a callback supplied by
    the user may read and change [W], and so leaves a mark when it is
    invoked. *)
Definition M (W A : Type) : Type := W -> A * W.

#[export] Instance M_ret (W : Type) : MRet (M W) := fun A a w => (a, w).

#[export] Instance M_bind (W : Type) : MBind (M W) :=
  fun A B k m w => let '(a, w') := m w in k a w'.

(** [Observer<T>]: [OnNext], [OnCompleted], [OnError]. *)
Record Observer (W E T : Type) : Type := {
  OnNext : T -> M W unit;
  OnCompleted : M W unit;
  OnError : E -> M W unit
}.
Arguments OnNext {W E T} _ _.
Arguments OnCompleted {W E T} _.
Arguments OnError {W E T} _ _.

(** [std::shared_ptr<Observable<T>>]: something an observer can be
    subscribed to. *)
Record Observable (W E T : Type) : Type := {
  Subscribe : Observer W E T -> M W unit
}.
Arguments Subscribe {W E T} _ _.

(** [BinderBase<T, Obj>] holds [Obj obj]; [BinderNested] and [Binder] add
    member functions only. *)
Record Binder (Obj : Type) : Type := MkBinder {
  obj : Obj
}.
Arguments MkBinder {Obj} obj.
Arguments obj {Obj} b.

(** The overload set [from]. *)
Class From (A B : Type) : Type := from : A -> B.
#[export] Hint Mode From ! - : typeclass_instances.

(** [Binder<shared_ptr<Observable<T>>> from(shared_ptr<Observable<T>> obj)
       { return Binder<...>(std::move(obj)); }] *)
#[export] Instance from_observable (W E T : Type)
  : From (Observable W E T) (Binder (Observable W E T)) :=
  fun obj => MkBinder obj.

(** [Binder<Obj> from(Binder<Obj> binder) { return std::move(binder); }] *)
#[export] Instance from_binder (Obj : Type) : From (Binder Obj) (Binder Obj) :=
  fun binder => binder.

(** [Obj publish() { return obj; }] *)
Definition publish {Obj : Type} (b : Binder Obj) : Obj := obj b.

Section Operators.
Context {W E : Type}.

(** Modelled from the spec: the free function [Where<T>(source, predicate)]
    is defined outside the sources.  Following section 4.2 it is a pure
    transformation from the downstream observer to an upstream one, built
    when [Subscribe] is called: the upstream observer calls the predicate
    on each item and forwards the item exactly when it holds.  Making the
    observable does nothing else. *)
Definition Where {T : Type} (source : Observable W E T) (predicate : T -> M W bool)
  : Observable W E T :=
  {| Subscribe observer :=
       Subscribe source
         {| OnNext element :=
              keep ← predicate element;
              if keep : bool then OnNext observer element else mret tt;
            OnCompleted := OnCompleted observer;
            OnError := OnError observer |} |}.

(** Modelled from the spec: the free function [Select<T>(source, selector)]
    is defined outside the sources.  Following section 4.2 its upstream
    observer calls the selector on each item and forwards the result. *)
Definition Select {T U : Type} (source : Observable W E T) (selector : T -> M W U)
  : Observable W E U :=
  {| Subscribe observer :=
       Subscribe source
         {| OnNext element := result ← selector element; OnNext observer result;
            OnCompleted := OnCompleted observer;
            OnError := OnError observer |} |}.

(** [auto where(P predicate) { return from(Where<item_type>(obj, predicate)); }] *)
Definition where_ {T : Type} (b : Binder (Observable W E T)) (predicate : T -> M W bool)
  : M W (Binder (Observable W E T)) :=
  mret (from (Where (obj b) predicate)).

(** [auto select(S selector) { return from(Select<item_type>(obj, selector)); }] *)
Definition select {T U : Type} (b : Binder (Observable W E T)) (selector : T -> M W U)
  : M W (Binder (Observable W E U)) :=
  mret (from (Select (obj b) selector)).

(** [auto subscribe(OnNext onNext) { auto result = Subscribe(obj, onNext); return result; }]
    The three-argument form, with the callbacks packed into an observer. *)
Definition subscribe {T : Type} (b : Binder (Observable W E T)) (observer : Observer W E T)
  : M W unit :=
  Subscribe (obj b) observer.

(** [source.where(p).select(f)], nothing more. *)
Definition where_select {T U : Type} (source : Observable W E T)
    (p : T -> M W bool) (f : T -> M W U)
  : M W (Binder (Observable W E U)) :=
  b ← where_ (from source) p; select b f.

(** A cold source that hands the items of a list to its observer and then
    completes. *)
Fixpoint emit {T : Type} (xs : list T) (observer : Observer W E T) : M W unit :=
  match xs with
  | [] => OnCompleted observer
  | x :: xs' => _ ← OnNext observer x; emit xs' observer
  end.

Definition iterate {T : Type} (xs : list T) : Observable W E T :=
  {| Subscribe := emit xs |}.

End Operators.

(** Callbacks that count their own invocations: the program state is the
    pair (calls of the predicate, calls of the selector). *)
Definition counted_predicate {T : Type} (p : T -> bool) : T -> M (nat * nat) bool :=
  fun x w => (p x, (S (fst w), snd w)).

Definition counted_selector {T U : Type} (f : T -> U) : T -> M (nat * nat) U :=
  fun x w => (f x, (fst w, S (snd w))).

(** A consumer that ignores what it is given. *)
Definition ignore {W E T : Type} : Observer W E T :=
  {| OnNext _ := mret tt; OnCompleted := mret tt; OnError _ := mret tt |}.

End Pipeline.

(* ===================================================================== *)
(** ** [maybe<T>]: copy and move construction *)
(* ===================================================================== *)

Module MaybeCopy.

Section Constructors.
Context {T : Type}.

(** [maybe(const maybe& other) : is_set(false)
       { if (other.is_set) { new (&storage) T( *other.get()); is_set = true; } }]
    [ *other.get()] is the object [other] holds, read through [Maybe.get].
    The result is the object constructed, unless the read aborts. *)
Definition copy_construct (other : maybe T) : access (maybe T) :=
  if Maybe.is_set other then
    match Maybe.get other with
    | Got x => Got (Maybe.Build true x)
    | Aborted => Aborted
    end
  else Got (Maybe.Build false tt).

(** [maybe(maybe&& other) : is_set(false)
       { if (other.is_set) { new (&storage) T(std::move( *other.get()));
                             is_set = true; other.reset(); } }]
    The result is the object constructed together with [other] as it is
    left behind. *)
Definition move_construct (other : maybe T) : access (maybe T * maybe T) :=
  if Maybe.is_set other then
    match Maybe.get other with
    | Got x => Got (Maybe.Build true x, Maybe.reset other)
    | Aborted => Aborted
    end
  else Got (Maybe.Build false tt, other).

End Constructors.

End MaybeCopy.

(* ===================================================================== *)
(** ** [distinct_until_changed<T>] over a downstream that may throw *)
(* ===================================================================== *)

Module ThrowingDest.

(** A downstream whose calls may themselves leave by an exception: each
    call ends like a call into an observer does. *)
Class ThrowingSubscriber (T E D : Type) : Type := {
  try_on_next : T -> D -> completion E D;
  try_on_error : E -> D -> completion E D;
  try_on_completed : D -> completion E D
}.

(** A downstream whose calls always return is one that may throw and
    never does. *)
Definition returning {T E D : Type} (S : Subscriber T E D) : ThrowingSubscriber T E D :=
  {| try_on_next v d := Done (sub_on_next v d);
     try_on_error e d := Done (sub_on_error e d);
     try_on_completed d := Done (sub_on_completed d) |}.

Section Operator.
Context {T E D : Type} (ne : T -> T -> raised E bool) {S : ThrowingSubscriber T E D}.
Import DistinctUntilChanged.

(** [if (remembered.empty() || v != remembered.get())
       { remembered.reset(v); dest.on_next(v); }]
    with [remembered.reset(v)] done before [dest.on_next(v)] is entered. *)
Definition on_next (v : T) (o : distinct_until_changed_observer T D)
  : completion E (distinct_until_changed_observer T D) :=
  let changed :=
    let remembered' := Maybe.reset_value v (remembered o) in
    match try_on_next v (dest o) with
    | Done d' => Done (Observer d' remembered')
    | Unwound e d' => Unwound e (Observer d' remembered')
    | Abort => Abort
    end in
  if Maybe.empty (remembered o) then changed
  else
    match Maybe.get (remembered o) with
    | Aborted => Abort
    | Got x =>
        match ne v x with
        | Raise e => Unwound e o
        | Ret true => changed
        | Ret false => Done o
        end
    end.

End Operator.

End ThrowingDest.

(** The terminal calls among the recorded calls. *)
Definition terminals {T E : Type} (d : list (notification T E)) : list (notification T E) :=
  List.filter (fun n => match n with Next _ => false | _ => true end) d.

(* ===================================================================== *)
(** ** Argument resolution: [select_arg], [arg_resolver_n], [resolve_arg],
       [resolve_arg_set] *)
(* ===================================================================== *)

Module ArgResolver.

(** The members of an [arg_resolver_n] object: [n], [is_arg], [value]. *)
Record resolved (V : Type) : Type := Resolved {
  n : Z;
  is_arg : bool;
  value : V
}.
Arguments Resolved {V} n is_arg value.
Arguments n {V} r.
Arguments is_arg {V} r.
Arguments value {V} r.

(** A tag: [template<class Arg> struct predicate] and [default_type], the
    latter rendered by the value-initialised object [value()] makes. *)
Record tag (Ty V : Type) : Type := MkTag {
  predicate : Ty -> bool;
  default_type : V
}.
Arguments MkTag {Ty V} predicate default_type.
Arguments predicate {Ty V} t _.
Arguments default_type {Ty V} t.

(** With [RXCPP_USE_VARIADIC_TEMPLATES]. *)
Module Variadic.

Section Resolve.
(** Argument values, their decayed types, and a predicate on types. *)
Context {Ty V : Type} (type_of : V -> Ty).

(** [select_arg<N, Index>::get(ga, gan...)] is
    [select_arg<N, Index + 1>::get(gan...)], and
    [select_arg<N, N>::get(ga, ...)] is [ga].  With no argument left no
    [get] can be called. *)
Fixpoint select_arg (N Index : nat) (args : list V) : option V :=
  match args with
  | [] => None
  | ga :: gan => if (Index =? N)%nat then Some ga else select_arg N (S Index) gan
  end.

(** The specialisation [arg_resolver_n<...>::type] names: the one for
    argument [n], or the terminal one. *)
Inductive resolver_type : Type :=
| this_type (n : nat)
| terminal.

(** [arg_resolver_n<Size, N, Predicate, Default, Arg, ArgN...>::type] is
    [conditional<Predicate<Arg>::value, this_type, next_type::type>], with
    [next_type = arg_resolver_n<Size, N + 1, Predicate, Default, ArgN...>];
    [arg_resolver_n<Size, Size, Predicate, Default>::type] is itself.  An
    empty pack at [N <> Size] has no definition. *)
Fixpoint arg_resolver_n (Size N : nat) (Predicate : Ty -> bool) (ArgN : list Ty)
  : option resolver_type :=
  match ArgN with
  | [] => if (N =? Size)%nat then Some terminal else None
  | Arg :: ArgN' =>
      match arg_resolver_n Size (S N) Predicate ArgN' with
      | Some next => Some (if Predicate Arg then this_type N else next)
      | None => None
      end
  end.

(** [arg_resolver<Predicate, Default, ArgN...>::type] is
    [arg_resolver_n<sizeof...(ArgN), 0, Predicate, Default, decay<ArgN>...>::type]. *)
Definition arg_resolver (Predicate : Ty -> bool) (ArgN : list Ty) : option resolver_type :=
  arg_resolver_n (length ArgN) 0 Predicate ArgN.

(** The constructors: [value(select_arg<n, 0>::get(can...))] for argument
    [n], [value()] for the terminal specialisation, whose [n] is -1. *)
Definition construct (Default : V) (r : resolver_type) (can : list V) : option (resolved V) :=
  match r with
  | this_type k =>
      match select_arg k 0 can with
      | Some v => Some (Resolved (Z.of_nat k) true v)
      | None => None
      end
  | terminal => Some (Resolved (-1) false Default)
  end.

(** [resolve_arg<Predicate, Default>(an...)] returns
    [arg_resolver<Predicate, Default, ArgN...>::type(an...)]. *)
Definition resolve_arg (Predicate : Ty -> bool) (Default : V) (an : list V)
  : option (resolved V) :=
  match arg_resolver Predicate (type_of <$> an) with
  | Some r => construct Default r an
  | None => None
  end.

(** [resolve_arg_set(Tag, an...)] is
    [tuple_cat(make_tuple(resolve_arg<Tag::predicate, Tag::default_type>(an...)),
               resolve_arg_set(Tag::next_tag(), an...))],
    and [resolve_arg_set(arg_resolver_term, an...)] is the empty tuple.
    A [tag_set] chain is the list of its tags. *)
Fixpoint resolve_arg_set (tags : list (tag Ty V)) (an : list V)
  : option (list (resolved V)) :=
  match tags with
  | [] => Some []
  | Tag :: next_tag =>
      match resolve_arg (predicate Tag) (default_type Tag) an,
            resolve_arg_set next_tag an with
      | Some r, Some rest => Some (r :: rest)
      | _, _ => None
      end
  end.

End Resolve.

End Variadic.

(** Without [RXCPP_USE_VARIADIC_TEMPLATES]: six argument slots, the unused
    ones filled with [tag_unresolvable()]. *)
Module NonVariadic.

Section Resolve.
Context {Ty V : Type} (type_of : V -> Ty).
Context (Predicate : Ty -> bool) (Default : V).

(** [arg_resolver_n<-1, ...>]: [n = -1], [is_arg = false], [value()]. *)
Definition arg_resolver_n_minus1 (a0 a1 a2 a3 a4 a5 : V) : resolved V :=
  Resolved (-1) false Default.

(** [arg_resolver_n<0, ...>::type] is [this_type] when
    [Predicate<Arg0>::value], else [prev_type::type]; its constructor
    keeps the first argument. *)
Definition arg_resolver_n_0 (a0 a1 a2 a3 a4 a5 : V) : resolved V :=
  if Predicate (type_of a0) then Resolved 0 true a0
  else arg_resolver_n_minus1 a0 a1 a2 a3 a4 a5.

(** [arg_resolver_n<1, ...>] *)
Definition arg_resolver_n_1 (a0 a1 a2 a3 a4 a5 : V) : resolved V :=
  if Predicate (type_of a1) then Resolved 1 true a1
  else arg_resolver_n_0 a0 a1 a2 a3 a4 a5.

(** [arg_resolver_n<2, ...>] *)
Definition arg_resolver_n_2 (a0 a1 a2 a3 a4 a5 : V) : resolved V :=
  if Predicate (type_of a2) then Resolved 2 true a2
  else arg_resolver_n_1 a0 a1 a2 a3 a4 a5.

(** [arg_resolver_n<3, ...>] *)
Definition arg_resolver_n_3 (a0 a1 a2 a3 a4 a5 : V) : resolved V :=
  if Predicate (type_of a3) then Resolved 3 true a3
  else arg_resolver_n_2 a0 a1 a2 a3 a4 a5.

(** [arg_resolver_n<4, ...>] *)
Definition arg_resolver_n_4 (a0 a1 a2 a3 a4 a5 : V) : resolved V :=
  if Predicate (type_of a4) then Resolved 4 true a4
  else arg_resolver_n_3 a0 a1 a2 a3 a4 a5.

(** [arg_resolver_n<5, ...>] *)
Definition arg_resolver_n_5 (a0 a1 a2 a3 a4 a5 : V) : resolved V :=
  if Predicate (type_of a5) then Resolved 5 true a5
  else arg_resolver_n_4 a0 a1 a2 a3 a4 a5.

(** [arg_resolver<...>::type] is [arg_resolver_n<5, ...>::type]. *)
Definition arg_resolver (a0 a1 a2 a3 a4 a5 : V) : resolved V :=
  arg_resolver_n_5 a0 a1 a2 a3 a4 a5.

(** The seven overloads of [resolve_arg], for no argument up to six; each
    fills the slots it was not given with [tag_unresolvable()].  There is
    no overload for more. *)
Definition resolve_arg (tag_unresolvable : V) (an : list V) : option (resolved V) :=
  let u := tag_unresolvable in
  match an with
  | [] => Some (arg_resolver u u u u u u)
  | [a0] => Some (arg_resolver a0 u u u u u)
  | [a0; a1] => Some (arg_resolver a0 a1 u u u u)
  | [a0; a1; a2] => Some (arg_resolver a0 a1 a2 u u u)
  | [a0; a1; a2; a3] => Some (arg_resolver a0 a1 a2 a3 u u)
  | [a0; a1; a2; a3; a4] => Some (arg_resolver a0 a1 a2 a3 a4 u)
  | [a0; a1; a2; a3; a4; a5] => Some (arg_resolver a0 a1 a2 a3 a4 a5)
  | _ => None
  end.

End Resolve.

End NonVariadic.

(** The arguments a predicate on types accepts. *)
Definition accepted {Ty V : Type} (type_of : V -> Ty) (Predicate : Ty -> bool)
    (an : list V) : list V :=
  List.filter (fun a => Predicate (type_of a)) an.

End ArgResolver.

(* ===================================================================== *)
(** ** Further objects used in the examples *)
(* ===================================================================== *)

(** A recording downstream whose [on_next] throws on the value 7. *)
Definition failing_recorder
  : ThrowingDest.ThrowingSubscriber Z string (list (notification Z string)) :=
  {| ThrowingDest.try_on_next v d :=
       if v =? 7 then Unwound "downstream failed"%string d else Done (d ++ [Next v]);
     ThrowingDest.try_on_error e d := Done (d ++ [Error e]);
     ThrowingDest.try_on_completed d := Done (d ++ [Completed]) |}.

(** Three argument types, and arguments that carry their type with them. *)
Inductive example_type : Type :=
| type_int
| type_scheduler
| type_unresolvable.

Definition example_type_of (a : example_type * Z) : example_type := fst a.

(** [is_scheduler<Arg>::value] *)
Definition is_scheduler (t : example_type) : bool :=
  match t with
  | type_scheduler => true
  | _ => false
  end.

(** [is_int<Arg>::value] *)
Definition is_int (t : example_type) : bool :=
  match t with
  | type_int => true
  | _ => false
  end.

(* ===================================================================== *)
(** * Theorems *)
(* ===================================================================== *)

Import DistinctUntilChanged.

(** ** [maybe] *)

Section MaybeFacts.
Context {T : Type}.
Implicit Types (m : maybe T) (v : T).

Lemma maybe_empty_inv m : Maybe.empty m = true -> m = Maybe.default.
Proof. destruct m as [[] s]; cbn; [discriminate|]. now destruct s. Qed.

Lemma maybe_nonempty_inv m :
  Maybe.empty m = false -> exists x, m = Maybe.Build true x.
Proof. destruct m as [[] s]; cbn; [eauto | discriminate]. Qed.

Lemma maybe_reset_idempotent m : Maybe.reset (Maybe.reset m) = Maybe.reset m.
Proof. now destruct m as [[] s]. Qed.

Lemma held_empty m : Maybe.empty m = true -> held m = None.
Proof. now intros ->%maybe_empty_inv. Qed.

End MaybeFacts.

(** C10: a default-constructed [maybe] is empty with size 0; after
    [m.reset(v)] the slot is non-empty, has size 1 and [value()] returns
    [v]; after [m.reset()] it is empty with size 0; and [reset()] on an
    empty slot changes nothing. *)
Theorem C10_maybe_empty_size_value_consistent :
  (forall T : Type,
      Maybe.empty (@Maybe.default T) = true /\ Maybe.size (@Maybe.default T) = 0%nat)
  /\ (forall (T : Type) (m : maybe T) (v : T),
      Maybe.empty (Maybe.reset_value v m) = false
      /\ Maybe.size (Maybe.reset_value v m) = 1%nat
      /\ Maybe.value (Maybe.reset_value v m) = Got v)
  /\ (forall (T : Type) (m : maybe T),
      Maybe.empty (Maybe.reset m) = true /\ Maybe.size (Maybe.reset m) = 0%nat)
  /\ (forall (T : Type) (m : maybe T),
      Maybe.empty m = true -> Maybe.reset m = m).
Proof.
  repeat split.
  - now destruct m as [[] s].
  - now destruct m as [[] s].
  - intros T m Hm. apply maybe_empty_inv in Hm. now subst.
Qed.

Lemma C10_maybe_witness :
  Maybe.empty (@Maybe.default Z) = true
  /\ Maybe.reset (@Maybe.default Z) = Maybe.default
  /\ Maybe.value (Maybe.reset_value 7 (Maybe.of_value 3)) = Got 7.
Proof.
  pose proof C10_maybe_empty_size_value_consistent as (_ & Hset & _ & Hnoop).
  split; [reflexivity|]. split.
  - apply Hnoop. reflexivity.
  - apply Hset.
Defined.

(** ** [on_next] never reaches [abort()] *)

Section NoAbort.
Context {T E D : Type} (ne : T -> T -> raised E bool) `{!Subscriber T E D}.
Implicit Types (o : distinct_until_changed_observer T D).

Lemma on_next_not_abort v o : on_next ne v o <> Abort.
Proof.
  unfold on_next. destruct o as [d [[] s]]; cbn; [|discriminate].
  destruct (ne v s) as [[]|]; discriminate.
Qed.

Lemma deliver_not_abort n o : deliver ne n o <> Abort.
Proof. destruct n; cbn; [apply on_next_not_abort | discriminate..]. Qed.

Lemma feed_not_abort ns : forall o, feed ne ns o <> Abort.
Proof.
  induction ns as [|n ns IH]; intros o; cbn; [discriminate|].
  pose proof (deliver_not_abort n o) as Hn.
  destruct (deliver ne n o); [apply IH | discriminate | congruence].
Qed.

Lemma feed_after_is_Some ns o : is_Some (after (feed ne ns o)).
Proof.
  pose proof (feed_not_abort ns o).
  destruct (feed ne ns o); cbn; eauto. congruence.
Qed.

End NoAbort.

(** C7: on an empty [maybe], [operator*], [operator->] and [value()] abort;
    on a non-empty one they return the stored value; and [on_next] of the
    distinct-until-changed observer, which reads the slot only behind
    [remembered.empty() ||], never ends in [abort()]. *)
Theorem C7_maybe_access_aborts_exactly_when_empty :
  (forall (T : Type) (m : maybe T),
      Maybe.empty m = true ->
      Maybe.op_star m = Aborted /\ Maybe.op_arrow m = Aborted /\ Maybe.value m = Aborted)
  /\ (forall (T : Type) (m : maybe T),
      Maybe.empty m = false ->
      exists x, m = Maybe.Build true x
                /\ Maybe.op_star m = Got x /\ Maybe.op_arrow m = Got x /\ Maybe.value m = Got x)
  /\ (forall (T E D : Type) (ne : T -> T -> raised E bool) (S : Subscriber T E D)
             (v : T) (o : distinct_until_changed_observer T D),
      on_next ne v o <> Abort).
Proof.
  split; [|split].
  - intros T m ->%maybe_empty_inv. now cbn.
  - intros T m [x ->]%maybe_nonempty_inv. exists x. now cbn.
  - intros. apply on_next_not_abort.
Qed.

Lemma C7_maybe_access_witness :
  Maybe.value (@Maybe.default Z) = Aborted
  /\ Maybe.op_star (Maybe.of_value 5) = Got 5.
Proof.
  pose proof C7_maybe_access_aborts_exactly_when_empty as (Hempty & Hfull & _).
  split.
  - apply (Hempty Z Maybe.default). reflexivity.
  - destruct (Hfull Z (Maybe.of_value 5) eq_refl) as (x & Hx & Hstar & _).
    rewrite Hstar. apply (f_equal Maybe.value) in Hx. cbn in Hx. now rewrite Hx.
Defined.

(** ** One call of [on_next] *)

Section OnNext.
Context {T E D : Type} (ne : T -> T -> raised E bool) `{!Subscriber T E D}.
Implicit Types (o : distinct_until_changed_observer T D) (v x : T).

Lemma on_next_first v o :
  Maybe.empty (remembered o) = true ->
  on_next ne v o = Done (Observer (sub_on_next v (dest o)) (Maybe.of_value v)).
Proof. intros Hm. unfold on_next. now rewrite Hm. Qed.

Lemma on_next_held v o x :
  Maybe.get (remembered o) = Got x ->
  on_next ne v o =
    match ne v x with
    | Ret true => Done (Observer (sub_on_next v (dest o)) (Maybe.of_value v))
    | Ret false => Done o
    | Raise e => Unwound e o
    end.
Proof.
  destruct o as [d [[] s]]; cbn; [|discriminate].
  intros [= ->]. unfold on_next; cbn. now destruct (ne v x) as [[]|].
Qed.

End OnNext.

(** C1: [on_next(v)] with nothing remembered, or with [v] different from
    the remembered value, leaves [v] remembered and passes [on_next(v)] to
    the downstream; with [v] equal to the remembered value it changes
    nothing and passes nothing on.  Fed 1,1,2,2,2,3,1 a fresh activation
    passes on 1,2,3,1. *)
Theorem C1_on_next_forwards_exactly_the_changes :
  (forall (T E D : Type) (ne : T -> T -> raised E bool) (S : Subscriber T E D)
          (v : T) (o : distinct_until_changed_observer T D),
      Maybe.empty (remembered o) = true
      \/ (exists x, Maybe.get (remembered o) = Got x /\ ne v x = Ret true) ->
      on_next ne v o = Done (Observer (sub_on_next v (dest o)) (Maybe.of_value v)))
  /\ (forall (T E D : Type) (ne : T -> T -> raised E bool) (S : Subscriber T E D)
             (v x : T) (o : distinct_until_changed_observer T D),
      Maybe.get (remembered o) = Got x -> ne v x = Ret false ->
      on_next ne v o = Done o)
  /\ observed Z_ne (Next <$> [1; 1; 2; 2; 2; 3; 1]) = Some (Next <$> [1; 2; 3; 1]).
Proof.
  split; [|split].
  - intros T E D ne S v o [Hm | (x & Hx & Hne)].
    + now apply on_next_first.
    + rewrite (on_next_held ne v o x Hx). now rewrite Hne.
  - intros T E D ne S v x o Hx Hne.
    rewrite (on_next_held ne v o x Hx). now rewrite Hne.
  - reflexivity.
Qed.

Lemma C1_on_next_witness :
  on_next Z_ne 2 (Observer [Next 1] (Maybe.of_value 1))
    = Done (Observer [Next 1; Next 2] (Maybe.of_value 2))
  /\ on_next Z_ne 1 (Observer [Next 1] (Maybe.of_value 1))
    = Done (Observer [Next 1] (Maybe.of_value 1)).
Proof.
  pose proof C1_on_next_forwards_exactly_the_changes as (Hchanged & Hsame & _).
  split.
  - apply (Hchanged Z string _ Z_ne (recorder Z string) 2
             (Observer [Next 1] (Maybe.of_value 1))).
    right. exists 1. split; reflexivity.
  - apply (Hsame Z string _ Z_ne (recorder Z string) 1 1
             (Observer [Next 1] (Maybe.of_value 1)));
      reflexivity.
Defined.

(** C6: a fresh activation that is completed at once passes on the
    completion and nothing else, no error among it; one that is given the
    single value 5 passes on 5. *)
Theorem C6_empty_and_single_inputs :
  feed Z_ne [Completed] (call []) = Done (Observer [Completed] Maybe.default)
  /\ observed Z_ne [Completed] = Some [Completed]
  /\ observed Z_ne [Next 5] = Some [Next 5]
  /\ observed Z_ne [Next 5; Completed] = Some [Next 5; Completed].
Proof. repeat split. Qed.

(** C2 does not hold of the code: [on_next] has no handler around
    [v != remembered.get()].  With 13 remembered, the comparison of the
    next value throws; the exception leaves [on_next], and the downstream
    has been told of no error. *)
Lemma C2_exception_escapes_on_next :
  on_next fragile_ne 1 (Observer [Next 13] (Maybe.of_value 13))
    = Unwound "operator!= failed"%string (Observer [Next 13] (Maybe.of_value 13))
  /\ observed fragile_ne [Next 13; Next 1] = Some [Next 13]
  /\ (errors <$> observed fragile_ne [Next 13; Next 1]) = Some [].
Proof. repeat split. Qed.

(** C2, amended: when the comparison of the incoming value with the
    remembered one throws, the exception leaves [on_next]; that call passes
    nothing to the downstream and the remembered value stays as it was. *)
Theorem C2_comparison_exception_propagates
    (T E D : Type) (ne : T -> T -> raised E bool) (S : Subscriber T E D)
    (v x : T) (e : E) (o : distinct_until_changed_observer T D) :
  Maybe.get (remembered o) = Got x ->
  ne v x = Raise e ->
  on_next ne v o = Unwound e o.
Proof.
  intros Hx Hne. rewrite (on_next_held ne v o x Hx). now rewrite Hne.
Qed.

Lemma C2_comparison_exception_witness :
  on_next fragile_ne 1 (Observer [Next 13] (Maybe.of_value 13))
    = Unwound "operator!= failed"%string (Observer [Next 13] (Maybe.of_value 13)).
Proof.
  apply (C2_comparison_exception_propagates Z string _ fragile_ne
           (recorder Z string) 1 13);
    reflexivity.
Defined.

(** C3 does not hold of the code: neither [on_error] nor [on_completed]
    touches [remembered].  An observer that remembers 1 still remembers 1
    after either call. *)
Lemma C3_remembered_survives_terminal_calls :
  Maybe.empty
    (remembered (on_completed (D := list (notification Z string))
                   (Observer [Next 1] (Maybe.of_value 1)))) = false
  /\ Maybe.empty
    (remembered (on_error (D := list (notification Z string)) "boom"%string
                   (Observer [Next 1] (Maybe.of_value 1)))) = false
  /\ (remembered <$> after (feed Z_ne [Next 1; Completed] (call [])))
     = Some (Maybe.of_value 1).
Proof. repeat split. Qed.

(** C3, amended: [on_error(e)] passes [on_error(e)] on and [on_completed()]
    passes [on_completed()] on, each leaving the remembered slot as it
    was; the slot is emptied when the observer is destroyed. *)
Theorem C3_terminal_calls_forward_and_keep_remembered :
  forall (T E D : Type) (S : Subscriber T E D) (e : E)
         (o : distinct_until_changed_observer T D),
    on_error e o = Observer (sub_on_error e (dest o)) (remembered o)
    /\ on_completed o = Observer (sub_on_completed (dest o)) (remembered o)
    /\ Maybe.empty (remembered (destroy (on_error e o))) = true
    /\ Maybe.empty (remembered (destroy (on_completed o))) = true.
Proof.
  intros T E D S e [d [[] s]]; repeat split.
Qed.

(** ** A run of values through one activation *)

Section Run.
Context {T E : Type} (ne : T -> T -> raised E bool).
Implicit Types (o : distinct_until_changed_observer T (list (notification T E))).
Implicit Types (xs out : list T).

Lemma changes_lookup out : forall last i a b,
  changes ne last out -> out !! i = Some a -> out !! S i = Some b ->
  ne b a = Ret true.
Proof.
  induction out as [|c out IH]; intros last i a b Hch Ha Hb; [discriminate|].
  destruct Hch as [_ Hch]. destruct i as [|i]; cbn in Ha, Hb.
  - injection Ha as ->. destruct out as [|c' out]; [discriminate|].
    injection Hb as ->. now destruct Hch.
  - eapply IH; eauto.
Qed.

(** What a run of values leaves in a recording downstream: the calls that
    were there, followed by [on_next] calls whose values are picked in
    order from the input, each different from the one passed on before it. *)
Lemma feed_values xs : forall o,
  exists out o',
    after (feed ne (Next <$> xs) o) = Some o'
    /\ dest o' = dest o ++ (Next <$> out)
    /\ out `sublist_of` xs
    /\ changes ne (held (remembered o)) out
    /\ (Maybe.empty (remembered o) = true -> head out = head xs).
Proof.
  induction xs as [|x xs IH]; intros o.
  - exists [], o. cbn. rewrite app_nil_r. repeat split. constructor.
  - cbn [fmap list_fmap feed deliver].
    destruct (Maybe.empty (remembered o)) eqn:Hm.
    + rewrite (on_next_first ne x o Hm).
      destruct (IH (Observer (sub_on_next x (dest o)) (Maybe.of_value x)))
        as (out & o' & Hafter & Hdest & Hsub & Hch & _).
      exists (x :: out), o'. cbn in *. rewrite Hdest, <- app_assoc.
      rewrite (held_empty _ Hm). repeat split; auto. now constructor.
    + destruct (maybe_nonempty_inv _ Hm) as [y Hy].
      assert (Hget : Maybe.get (remembered o) = Got y) by now rewrite Hy.
      assert (Hheld : held (remembered o) = Some y) by now rewrite Hy.
      rewrite (on_next_held ne x o y Hget), Hheld.
      destruct (ne x y) as [[]|e] eqn:Hne.
      * destruct (IH (Observer (sub_on_next x (dest o)) (Maybe.of_value x)))
          as (out & o' & Hafter & Hdest & Hsub & Hch & _).
        exists (x :: out), o'. cbn in *. rewrite Hdest, <- app_assoc.
        repeat split; auto. now constructor.
      * destruct (IH o) as (out & o' & Hafter & Hdest & Hsub & Hch & _).
        exists out, o'. rewrite Hheld in Hch.
        repeat split; auto; [now constructor | discriminate].
      * exists [], o. cbn. rewrite app_nil_r.
        repeat split; [apply sublist_nil_l | discriminate].
Qed.

End Run.

(** C8: whatever values a fresh activation is fed, the values it passes on
    are a subsequence of them in the same order, each passed-on value
    differs (under the item type's [!=]) from the one passed on just
    before it, and the first value fed is the first value passed on. *)
Theorem C8_output_is_a_changing_subsequence :
  forall (T E : Type) (ne : T -> T -> raised E bool) (xs : list T),
  exists out : list T,
    observed ne (Next <$> xs) = Some (Next <$> out)
    /\ out `sublist_of` xs
    /\ (forall i a b, out !! i = Some a -> out !! S i = Some b -> ne b a = Ret true)
    /\ head out = head xs.
Proof.
  intros T E ne xs.
  destruct (feed_values ne xs (call [])) as (out & o' & Hafter & Hdest & Hsub & Hch & Hhd).
  exists out. unfold observed. rewrite Hafter. cbn in *. rewrite Hdest.
  repeat split; auto.
  intros i a b. now apply changes_lookup with (last := None).
Qed.

(** ** Activations side by side *)

Section Activations.
Context {T E D : Type} (ne : T -> T -> raised E bool) `{!Subscriber T E D}.
Implicit Types (h : gmap nat (distinct_until_changed_observer T D)).
Implicit Types (w : world (T := T) (E := E) (D := D)).
Implicit Types (s : list (nat * notification T E)) (acts : list nat).

Lemma resume_one n ns c : resume ne ns (resume ne [n] c) = resume ne (n :: ns) c.
Proof. destruct c as [o|e o|]; cbn; try reflexivity. now destruct (deliver ne n o). Qed.

(** A call into the object at [this] does to that object what the member
    function does, and changes no other object. *)
Lemma deliver_in_object this n h o :
  h !! this = Some o ->
  deliver_in ne this n h
  = match deliver ne n o with
    | Done o' => Done (<[this := o']> h)
    | Unwound e o' => Unwound e (<[this := o']> h)
    | Abort => Abort
    end.
Proof.
  intros Ho. destruct n as [v|e|]; cbn [deliver_in deliver].
  - unfold on_next_in, on_next. rewrite Ho.
    destruct (Maybe.empty (remembered o)); [reflexivity|].
    destruct (Maybe.get (remembered o)) as [x|]; [|reflexivity].
    destruct (ne v x) as [[]|e]; try reflexivity; now rewrite (insert_id h this o).
  - unfold on_error_in. now rewrite Ho.
  - unfold on_completed_in. now rewrite Ho.
Qed.

Lemma deliver_in_no_object this n h :
  h !! this = None -> deliver_in ne this n h = Done h.
Proof.
  intros Ho. destruct n as [v|e|]; cbn [deliver_in];
    unfold on_next_in, on_error_in, on_completed_in; now rewrite Ho.
Qed.

(** One call of a source: the activation called moves on by that call,
    every activation whose observer is another object stays as it is. *)
Lemma push_outcome acts i n w :
  NoDup acts ->
  exists w',
    push ne acts i n w = Some w'
    /\ forall j, outcome acts w' j
                 = if decide (j = i) then resume ne [n] <$> outcome acts w j
                   else outcome acts w j.
Proof.
  intros Hnd. unfold push.
  destruct (acts !! i) as [this|] eqn:Hi.
  2:{ exists w. split; [reflexivity|]. intros j. case_decide; [subst j|reflexivity].
      unfold outcome. now rewrite Hi. }
  destruct (unwound w !! i) as [e|] eqn:Hu.
  { exists w. split; [reflexivity|]. intros j. case_decide; [subst j|reflexivity].
    unfold outcome. rewrite Hi, Hu. now destruct (objects w !! this). }
  destruct (objects w !! this) as [o|] eqn:Ho.
  2:{ rewrite (deliver_in_no_object this n _ Ho). exists w. destruct w as [h u].
      split; [reflexivity|]. intros j. case_decide; [subst j|reflexivity].
      unfold outcome. cbn in *. now rewrite Hi, Ho. }
  rewrite (deliver_in_object this n _ o Ho).
  pose proof (deliver_not_abort ne n o) as Hna.
  assert (Hother : forall j that, j <> i -> acts !! j = Some that -> that <> this).
  { intros j that Hji Hj ->. apply Hji. eapply NoDup_lookup; eauto. }
  destruct (deliver ne n o) as [o'|e o'|] eqn:Hd; [| |congruence].
  - eexists. split; [reflexivity|]. intros j. unfold outcome. cbn [objects unwound].
    case_decide as Hj.
    + subst j. rewrite Hi, Ho, Hu, lookup_insert_eq. cbn. now rewrite Hd.
    + destruct (acts !! j) as [that|] eqn:Hthat; [|reflexivity].
      now rewrite lookup_insert_ne by (apply not_eq_sym; eauto).
  - eexists. split; [reflexivity|]. intros j. unfold outcome. cbn [objects unwound].
    case_decide as Hj.
    + subst j. rewrite Hi, Ho, Hu, !lookup_insert_eq. cbn. now rewrite Hd.
    + destruct (acts !! j) as [that|] eqn:Hthat; [|reflexivity].
      rewrite lookup_insert_ne by (apply not_eq_sym; eauto).
      now rewrite lookup_insert_ne by (apply not_eq_sym; exact Hj).
Qed.

(** Over distinct observer objects, every activation ends where its own
    calls, made to it alone, lead it. *)
Lemma interleave_outcome acts s : forall w,
  NoDup acts ->
  exists w',
    interleave ne acts s w = Some w'
    /\ forall i, outcome acts w' i = resume ne (calls_to i s) <$> outcome acts w i.
Proof.
  induction s as [|[i n] s IH]; intros w Hnd.
  - exists w. split; [reflexivity|]. intros i. cbn.
    now destruct (outcome acts w i) as [[]|].
  - cbn [interleave]. destruct (push_outcome acts i n w Hnd) as (w1 & -> & H1).
    destruct (IH w1 Hnd) as (w' & -> & H'). exists w'. split; [reflexivity|].
    intros j. rewrite H', H1. unfold calls_to. cbn [omap list_omap fst snd].
    destruct (decide (i = j)) as [->|Hij].
    + rewrite decide_True by reflexivity.
      destruct (outcome acts w j) as [c|]; cbn [fmap option_fmap option_map]; [|reflexivity].
      f_equal. apply resume_one.
    + now rewrite decide_False by (apply not_eq_sym; exact Hij).
Qed.

(** [operator()] makes an object at an unused address and leaves the
    objects there are alone. *)
Lemma call_in_fresh d h :
  h !! (call_in d h).1 = None
  /\ (call_in d h).2 !! (call_in d h).1 = Some (call d)
  /\ forall a o, h !! a = Some o -> (call_in d h).2 !! a = Some o.
Proof.
  unfold call_in. cbn [fst snd].
  assert (Hfresh : h !! fresh (dom h) = None).
  { apply not_elem_of_dom, is_fresh. }
  split; [exact Hfresh|]. split; [apply lookup_insert_eq|].
  intros a o Ha. rewrite lookup_insert_ne; [exact Ha|]. congruence.
Qed.

(** The observers made for a list of subscribers are distinct new
    objects, each with its subscriber and an empty slot. *)
Lemma activate_fresh ds : forall h,
  NoDup (activate ds h).1
  /\ length (activate ds h).1 = length ds
  /\ (forall i this, (activate ds h).1 !! i = Some this ->
        h !! this = None
        /\ (activate ds h).2 !! this = (fun d => DistinctUntilChanged.Observer d Maybe.default) <$> ds !! i)
  /\ (forall a o, h !! a = Some o -> (activate ds h).2 !! a = Some o).
Proof.
  induction ds as [|d ds IH]; intros h.
  - cbn. repeat split; [constructor | discriminate | discriminate | auto].
  - cbn [activate].
    destruct (call_in_fresh d h) as (Hnew & Hmade & Hkept).
    destruct (call_in d h) as [this h1] eqn:Hcall. cbn [fst snd] in *.
    specialize (IH h1). destruct (activate ds h1) as [rest h2] eqn:Hact.
    cbn [fst snd] in *. destruct IH as (Hnd & Hlen & Hobj & Hkept2).
    split; [|split; [|split]].
    + apply NoDup_cons. split; [|exact Hnd].
      intros [j Hj]%list_elem_of_lookup. destruct (Hobj j this Hj) as [Hnone _].
      congruence.
    + cbn. now rewrite Hlen.
    + intros [|i] that Hthat; cbn in Hthat |- *.
      * injection Hthat as <-. split; [exact Hnew|]. now apply Hkept2.
      * destruct (Hobj i that Hthat) as [Hnone Hsome]. split; [|exact Hsome].
        destruct (h !! that) as [o|] eqn:Ho; [|reflexivity].
        rewrite (Hkept _ _ Ho) in Hnone. discriminate.
    + intros a o Ha. apply Hkept2, Hkept, Ha.
Qed.

End Activations.

(** Two activations handed one and the same observer object would not be
    independent: the second one's own call, made to a fresh observer,
    passes on 2 alone. *)
Lemma shared_observer_would_interfere :
  (w ← interleave Z_ne [0; 0]%nat [(0%nat, Next 1); (1%nat, Next 2)]
         (World {[0%nat := call []]} ∅);
   outcome [0; 0]%nat w 1)
  = Some (Done (DistinctUntilChanged.Observer [Next 1; Next 2] (Maybe.of_value 2)))
  /\ feed Z_ne [Next 2] (call [])
     = Done (DistinctUntilChanged.Observer [Next 2] (Maybe.of_value 2)).
Proof. split; reflexivity. Qed.

(** C4: every call of the factory makes a new observer object, at an
    address of its own, with the subscriber it was given and an empty
    remembered slot, and leaves the objects there are untouched; and
    however the calls to the activations so made are interleaved, each
    activation ends exactly where its own calls, made to a fresh observer
    alone, lead: no call into one observer reads or writes another. *)
Theorem C4_activations_do_not_share_remembered_state :
  forall (T E D : Type) (ne : T -> T -> raised E bool) (S : Subscriber T E D)
         (h0 : gmap nat (distinct_until_changed_observer T D))
         (ds : list D) (s : list (nat * notification T E)),
    let acts := (activate ds h0).1 in
    let h := (activate ds h0).2 in
    NoDup acts
    /\ (forall i d, ds !! i = Some d ->
          exists this, acts !! i = Some this
                       /\ h0 !! this = None
                       /\ h !! this = Some (DistinctUntilChanged.Observer d Maybe.default))
    /\ (forall a o, h0 !! a = Some o -> h !! a = Some o)
    /\ exists w,
         interleave ne acts s (World h ∅) = Some w
         /\ forall i, outcome acts w i
                      = (fun d => feed ne (calls_to i s) (call d)) <$> ds !! i.
Proof.
  intros T E D ne S h0 ds s acts h.
  destruct (activate_fresh ds h0) as (Hnd & Hlen & Hobj & Hkept).
  fold acts h in Hnd, Hlen, Hobj, Hkept.
  assert (Hmade : forall i d, ds !! i = Some d ->
            exists this, acts !! i = Some this /\ h0 !! this = None
                         /\ h !! this = Some (DistinctUntilChanged.Observer d Maybe.default)).
  { intros i d Hd.
    destruct (acts !! i) as [this|] eqn:Hi.
    - exists this. destruct (Hobj i this Hi) as [Hnone Hsome].
      rewrite Hd in Hsome. auto.
    - apply lookup_ge_None in Hi. apply lookup_lt_Some in Hd. lia. }
  split; [exact Hnd|]. split; [exact Hmade|]. split; [exact Hkept|].
  destruct (interleave_outcome ne acts s (World h ∅) Hnd) as (w & Hw & Hout).
  exists w. split; [exact Hw|]. intros i. rewrite Hout.
  destruct (ds !! i) as [d|] eqn:Hd.
  - destruct (Hmade i d Hd) as (this & Hi & _ & Hthis).
    unfold outcome. cbn [objects unwound]. now rewrite Hi, Hthis, lookup_empty.
  - unfold outcome. apply lookup_ge_None in Hd.
    now rewrite (proj2 (lookup_ge_None acts i)) by lia.
Qed.

(** ** The fluent chain *)

Import Pipeline.

Section Chain.
Context {E T U : Type}.
Implicit Types (p : T -> bool) (f : T -> U) (xs : list T).

(** Subscribing is what runs the callbacks: through [where(p).select(f)]
    the predicate is called once per item of the source and the selector
    once per item that passes. *)
Lemma emit_where_select_counts p f xs : forall (w : nat * nat),
  snd (Subscribe (E := E)
         (Select (Where (iterate xs) (counted_predicate p)) (counted_selector f))
         ignore w)
  = ((fst w + length xs)%nat, (snd w + length (List.filter p xs))%nat).
Proof.
  cbn [Subscribe Select Where iterate].
  induction xs as [|x xs IH]; intros [a b].
  - cbn. f_equal; lia.
  - cbn [emit OnNext List.filter length]. unfold mbind, M_bind at 1.
    unfold mbind, M_bind at 1. unfold counted_predicate at 1. cbn [fst snd].
    destruct (p x); cbn -[emit]; unfold mbind, M_bind, counted_selector; cbn -[emit];
      rewrite IH; cbn; f_equal; lia.
Qed.

End Chain.

(** C5: building [source.where(p).select(f)] leaves the program state as
    it was, whatever the callbacks would do to it when invoked, and
    returns a [Binder] around the composed observable; with callbacks
    that count their invocations both counts are still zero afterwards. *)
Theorem C5_building_a_chain_invokes_no_callback :
  (forall (W E T : Type) (b : Binder (Observable W E T)) (p : T -> M W bool) (w : W),
      where_ b p w = (MkBinder (Where (obj b) p), w))
  /\ (forall (W E T U : Type) (b : Binder (Observable W E T)) (f : T -> M W U) (w : W),
      select b f w = (MkBinder (Select (obj b) f), w))
  /\ (forall (W E T U : Type) (source : Observable W E T)
             (p : T -> M W bool) (f : T -> M W U) (w : W),
      where_select source p f w = (MkBinder (Select (Where source p) f), w))
  /\ (forall (E T U : Type) (source : Observable (nat * nat) E T)
             (p : T -> bool) (f : T -> U),
      snd (where_select source (counted_predicate p) (counted_selector f) (0%nat, 0%nat))
      = (0%nat, 0%nat)).
Proof. repeat split. Qed.

(** C9: [from(obj).publish()] is [obj]; [from] of a [Binder] is that
    [Binder]; hence [from(from(x))] is [from(x)]. *)
Theorem C9_from_and_publish_round_trip :
  (forall (W E T : Type) (obj : Observable W E T), publish (from obj) = obj)
  /\ (forall (Obj : Type) (binder : Binder Obj), from binder = binder)
  /\ (forall (W E T : Type) (x : Observable W E T),
      from (from x : Binder (Observable W E T)) = (from x : Binder (Observable W E T))).
Proof. repeat split. Qed.

(* ===================================================================== *)
(** * Further properties of the distinct-until-changed observer *)
(* ===================================================================== *)

Section Recorded.
Context {T E : Type} (ne : T -> T -> raised E bool).
Implicit Types (o : distinct_until_changed_observer T (list (notification T E))).
Implicit Types (d : list (notification T E)) (ns : list (notification T E)).
Implicit Types (xs out : list T).

Lemma values_snoc_next d v : values (d ++ [Next v]) = values d ++ [v].
Proof. unfold values. now rewrite omap_app. Qed.

Lemma values_snoc_error d e : values (d ++ [Error e]) = values d.
Proof. unfold values. rewrite omap_app. apply app_nil_r. Qed.

Lemma values_snoc_completed d : values (d ++ [@Completed T E]) = values d.
Proof. unfold values. rewrite omap_app. apply app_nil_r. Qed.

Lemma values_fmap_next xs : values (E := E) (Next <$> xs) = xs.
Proof.
  induction xs as [|x xs IH]; [reflexivity|].
  change (values (E := E) (Next <$> x :: xs)) with (x :: values (E := E) (Next <$> xs)).
  now rewrite IH.
Qed.

(** How one call of [on_next] ends, by cases. *)
Lemma on_next_cases v o :
  on_next ne v o = Done (DistinctUntilChanged.Observer (dest o ++ [Next v]) (Maybe.of_value v))
  \/ on_next ne v o = Done o
  \/ exists e, on_next ne v o = Unwound e o.
Proof.
  destruct (Maybe.empty (remembered o)) eqn:Hm.
  - left. now rewrite (on_next_first ne v o Hm).
  - destruct (maybe_nonempty_inv _ Hm) as [y Hy].
    assert (Hget : Maybe.get (remembered o) = Got y) by now rewrite Hy.
    rewrite (on_next_held ne v o y Hget).
    destruct (ne v y) as [[]|e]; eauto.
Qed.

(** The slot holds the value passed on last. *)
Lemma remembered_is_last_after ns : forall o o',
  held (remembered o) = last (values (dest o)) ->
  after (feed ne ns o) = Some o' ->
  held (remembered o') = last (values (dest o')).
Proof.
  induction ns as [|n ns IH]; intros o o' Hinv Hrun.
  - cbn in Hrun. now injection Hrun as <-.
  - cbn [feed] in Hrun. destruct n as [v|e|]; cbn [deliver] in Hrun.
    + destruct (on_next_cases v o) as [H | [H | [e H]]]; rewrite H in Hrun.
      * eapply IH; [|exact Hrun]. cbn [dest remembered].
        now rewrite values_snoc_next, last_snoc.
      * eapply IH; eauto.
      * cbn in Hrun. now injection Hrun as <-.
    + eapply IH; [|exact Hrun]. unfold on_error; cbn [dest remembered sub_on_error recorder].
      now rewrite values_snoc_error.
    + eapply IH; [|exact Hrun]. unfold on_completed; cbn [dest remembered sub_on_completed recorder].
      now rewrite values_snoc_completed.
Qed.

(** Terminal calls change neither the slot nor the values recorded. *)
Lemma feed_values_only ns : forall o1 o2,
  remembered o1 = remembered o2 ->
  values (dest o1) = values (dest o2) ->
  (fun o => (remembered o, values (dest o))) <$> after (feed ne ns o1)
  = (fun o => (remembered o, values (dest o)))
      <$> after (feed ne (Next <$> values ns) o2).
Proof.
  induction ns as [|n ns IH]; intros o1 o2 Hr Hv.
  - cbn. now rewrite Hr, Hv.
  - destruct n as [v|e|].
    + change (values (Next v :: ns)) with (v :: values ns).
      cbn [fmap list_fmap feed deliver].
      destruct o1 as [d1 r1], o2 as [d2 r2]; cbn [dest remembered] in Hr, Hv; subst r2.
      unfold on_next; cbn [dest remembered].
      destruct (Maybe.empty r1).
      * apply IH; cbn [dest remembered sub_on_next recorder]; [reflexivity|].
        now rewrite !values_snoc_next, Hv.
      * destruct (Maybe.get r1) as [x|]; [|reflexivity].
        destruct (ne v x) as [[]|e].
        -- apply IH; cbn [dest remembered sub_on_next recorder]; [reflexivity|].
           now rewrite !values_snoc_next, Hv.
        -- now apply IH.
        -- cbn [after fmap option_fmap option_map dest remembered]. now rewrite Hv.
    + change (values (Error e :: ns)) with (values ns). cbn [feed deliver].
      apply IH; unfold on_error; cbn [dest remembered sub_on_error recorder]; [exact Hr|].
      now rewrite values_snoc_error.
    + change (values (Completed :: ns)) with (values ns). cbn [feed deliver].
      apply IH; unfold on_completed; cbn [dest remembered sub_on_completed recorder]; [exact Hr|].
      now rewrite values_snoc_completed.
Qed.

(** Every terminal call is passed on, in order. *)
Lemma feed_terminals ns : forall o o',
  feed ne ns o = Done o' ->
  terminals (dest o') = terminals (dest o) ++ terminals ns.
Proof.
  induction ns as [|n ns IH]; intros o o' Hrun.
  - cbn in Hrun. injection Hrun as <-. cbn. now rewrite app_nil_r.
  - cbn [feed] in Hrun. destruct n as [v|e|]; cbn [deliver] in Hrun.
    + destruct (on_next_cases v o) as [H | [H | [e H]]]; rewrite H in Hrun.
      * rewrite (IH _ _ Hrun). cbn. unfold terminals.
        rewrite List.filter_app. cbn. now rewrite app_nil_r.
      * now rewrite (IH _ _ Hrun).
      * discriminate.
    + rewrite (IH _ _ Hrun). cbn. unfold terminals.
      rewrite List.filter_app. cbn. now rewrite <- app_assoc.
    + rewrite (IH _ _ Hrun). cbn. unfold terminals.
      rewrite List.filter_app. cbn. now rewrite <- app_assoc.
Qed.

(** A run whose values keep changing is passed on whole. *)
Lemma feed_changing xs : forall o,
  changes ne (held (remembered o)) xs ->
  feed ne (Next <$> xs) o
  = Done (DistinctUntilChanged.Observer (dest o ++ (Next <$> xs))
                   (match last xs with
                    | Some x => Maybe.of_value x
                    | None => remembered o
                    end)).
Proof.
  induction xs as [|x xs IH]; intros o Hch.
  - cbn. rewrite app_nil_r. now destruct o.
  - destruct Hch as [Hx Hch]. cbn [fmap list_fmap feed deliver].
    assert (Hnext : on_next ne x o
                    = Done (DistinctUntilChanged.Observer (dest o ++ [Next x]) (Maybe.of_value x))).
    { destruct (Maybe.empty (remembered o)) eqn:Hm.
      - now rewrite (on_next_first ne x o Hm).
      - destruct (maybe_nonempty_inv _ Hm) as [y Hy].
        assert (Hget : Maybe.get (remembered o) = Got y) by now rewrite Hy.
        rewrite (on_next_held ne x o y Hget).
        rewrite Hy in Hx. cbn in Hx. now rewrite Hx. }
    rewrite Hnext, IH by exact Hch. cbn [dest remembered].
    rewrite <- app_assoc. cbn. f_equal. f_equal.
    destruct xs as [|x' xs]; [reflexivity|]. cbn [last].
    destruct (last (x' :: xs)) eqn:Hl; [reflexivity|].
    apply last_None in Hl. discriminate.
Qed.

Lemma adjacent_changes xs : forall prev,
  match prev with
  | Some a => forall b, head xs = Some b -> ne b a = Ret true
  | None => True
  end ->
  (forall i a b, xs !! i = Some a -> xs !! S i = Some b -> ne b a = Ret true) ->
  changes ne prev xs.
Proof.
  induction xs as [|x xs IH]; intros prev Hhd Hadj; cbn; [exact I|].
  split.
  - destruct prev; [now apply Hhd | exact I].
  - apply IH.
    + intros b Hb. apply (Hadj 0%nat x b); [reflexivity|].
      now destruct xs; cbn in *.
    + intros i a b Ha Hb. now apply (Hadj (S i) a b).
Qed.

(** Once [x] is remembered, further copies of [x] are not passed on. *)
Lemma feed_repeats k x : forall o,
  ne x x = Ret false ->
  Maybe.get (remembered o) = Got x ->
  feed ne (Next <$> replicate k x) o = Done o.
Proof.
  induction k as [|k IH]; intros o Hxx Hget; [reflexivity|].
  cbn [replicate fmap list_fmap feed deliver].
  rewrite (on_next_held ne x o x Hget), Hxx. now apply IH.
Qed.

End Recorded.

(** X1: after any calls made to a fresh activation, the slot holds the
    value that was passed on last, and is empty if none was. *)
Theorem X1_remembered_is_the_last_value_passed_on
    (T E : Type) (ne : T -> T -> raised E bool) (ns : list (notification T E))
    (o : distinct_until_changed_observer T (list (notification T E))) :
  after (feed ne ns (call [])) = Some o ->
  held (remembered o) = last (values (dest o)).
Proof. apply remembered_is_last_after. reflexivity. Qed.

Lemma X1_remembered_witness :
  after (feed Z_ne [Next 1; Next 1; Completed; Next 2] (call []))
    = Some (DistinctUntilChanged.Observer [Next 1; Completed; Next 2] (Maybe.of_value 2))
  /\ held (Maybe.of_value 2) = last (values (E := string) [Next 1; Completed; Next 2]).
Proof.
  split; [reflexivity|].
  apply (X1_remembered_is_the_last_value_passed_on Z string Z_ne
           [Next 1; Next 1; Completed; Next 2]
           (DistinctUntilChanged.Observer [Next 1; Completed; Next 2] (Maybe.of_value 2))).
  reflexivity.
Defined.

(** X2: [on_error] and [on_completed] have no influence on which values
    are passed on: the values a fresh activation passes on for a sequence
    of calls are those it passes on for the [on_next] calls alone.  In
    particular the observer goes on passing values after a terminal call. *)
Theorem X2_terminal_calls_do_not_affect_values :
  forall (T E : Type) (ne : T -> T -> raised E bool) (ns : list (notification T E)),
    values <$> observed ne ns = values <$> observed ne (Next <$> values ns).
Proof.
  intros T E ne ns. unfold observed.
  pose proof (feed_values_only ne ns (call []) (call []) eq_refl eq_refl) as H.
  destruct (after (feed ne ns (call []))) as [o1|],
           (after (feed ne (Next <$> values ns) (call []))) as [o2|];
    cbn in H |- *; try discriminate; [|reflexivity].
  injection H as _ H. now rewrite H.
Qed.

(** X3: when a run of calls returns, the downstream has received every
    [on_error] and [on_completed] of the run, in the order they were made. *)
Theorem X3_terminal_calls_are_all_passed_on
    (T E : Type) (ne : T -> T -> raised E bool) (ns : list (notification T E))
    (o : distinct_until_changed_observer T (list (notification T E))) :
  feed ne ns (call []) = Done o ->
  terminals (dest o) = terminals ns.
Proof. intros H. now rewrite (feed_terminals ne ns _ _ H). Qed.

Lemma X3_terminal_calls_witness :
  terminals (T := Z) (E := string) [Next 1; Error "e"%string; Next 2; Completed]
  = terminals [Next 1; Error "e"%string; Next 1; Next 2; Next 2; Completed].
Proof.
  apply (X3_terminal_calls_are_all_passed_on Z string Z_ne
           [Next 1; Error "e"%string; Next 1; Next 2; Next 2; Completed]
           (DistinctUntilChanged.Observer
              [Next 1; Error "e"%string; Next 2; Completed] (Maybe.of_value 2))).
  reflexivity.
Defined.

(** With an [operator!=] that always returns, and a downstream whose
    calls return, every run of calls returns. *)
Lemma feed_returns_when_comparison_does
    (T E D : Type) (ne : T -> T -> raised E bool) (S : Subscriber T E D) :
  (forall v x, exists b, ne v x = Ret b) ->
  forall (ns : list (notification T E)) (o : distinct_until_changed_observer T D),
  exists o', feed ne ns o = Done o'.
Proof.
  intros Htotal ns. induction ns as [|n ns IH]; intros o; [now exists o|].
  cbn [feed]. destruct n as [v|e|]; cbn [deliver]; try apply IH.
  destruct (Maybe.empty (remembered o)) eqn:Hm.
  - rewrite (on_next_first ne v o Hm). apply IH.
  - destruct (maybe_nonempty_inv _ Hm) as [y Hy].
    assert (Hget : Maybe.get (remembered o) = Got y) by now rewrite Hy.
    rewrite (on_next_held ne v o y Hget).
    destruct (Htotal v y) as [[] ->]; apply IH.
Qed.

(** X5: a sequence in which every value differs from the one before it is
    passed on unchanged. *)
Theorem X5_changing_sequence_is_passed_on_whole
    (T E : Type) (ne : T -> T -> raised E bool) (xs : list T) :
  (forall i a b, xs !! i = Some a -> xs !! S i = Some b -> ne b a = Ret true) ->
  observed ne (Next <$> xs) = Some (Next <$> xs).
Proof.
  intros Hadj. unfold observed.
  rewrite (feed_changing ne xs (call [])); [reflexivity|].
  now apply adjacent_changes.
Qed.

Lemma X5_changing_sequence_witness :
  observed Z_ne (Next <$> [1; 2; 1]) = Some (Next <$> [1; 2; 1]).
Proof.
  apply (X5_changing_sequence_is_passed_on_whole Z string Z_ne [1; 2; 1]).
  intros [|[|[|i]]] a b Ha Hb; cbn in Ha, Hb; try discriminate;
    injection Ha as <-; injection Hb as <-; reflexivity.
Defined.

(** X6: the operator is idempotent: what one activation passes on, a
    second fresh activation passes on unchanged. *)
Theorem X6_output_is_a_fixed_point
    (T E : Type) (ne : T -> T -> raised E bool) (xs out : list T) :
  observed ne (Next <$> xs) = Some (Next <$> out) ->
  observed ne (Next <$> out) = Some (Next <$> out).
Proof.
  intros Hrun.
  destruct (feed_values ne xs (call [])) as (out' & o' & Hafter & Hdest & _ & Hch & _).
  unfold observed in Hrun. rewrite Hafter in Hrun. cbn in Hrun, Hdest.
  rewrite Hdest in Hrun. injection Hrun as Hrun.
  apply (f_equal (values (E := E))) in Hrun. rewrite !values_fmap_next in Hrun.
  subst out'. unfold observed.
  now rewrite (feed_changing ne out (call [])).
Qed.

Lemma X6_fixed_point_witness :
  observed Z_ne (Next <$> [1; 1; 2]) = Some (Next <$> [1; 2])
  /\ observed Z_ne (Next <$> [1; 2]) = Some (Next <$> [1; 2]).
Proof.
  split; [reflexivity|].
  apply (X6_output_is_a_fixed_point Z string Z_ne [1; 1; 2] [1; 2]). reflexivity.
Defined.

(** X7: when a value compares equal to itself, any number of copies of it
    in a row is passed on once. *)
Theorem X7_repeated_value_is_passed_on_once
    (T E : Type) (ne : T -> T -> raised E bool) (x : T) (k : nat) :
  ne x x = Ret false ->
  observed ne (Next <$> replicate (S k) x) = Some [Next x].
Proof.
  intros Hxx. unfold observed. cbn [replicate fmap list_fmap feed deliver].
  rewrite (on_next_first ne x (call []) eq_refl).
  now rewrite (feed_repeats ne k x) by (first [exact Hxx | reflexivity]).
Qed.

Lemma X7_repeated_value_witness :
  observed Z_ne (Next <$> replicate 3 4) = Some [Next 4].
Proof.
  apply (X7_repeated_value_is_passed_on_once Z string Z_ne 4 2). reflexivity.
Defined.

(** ** A downstream that throws *)

Section Throwing.
Context {T E D : Type} (ne : T -> T -> raised E bool).

(** Over a downstream that never throws, the observer is the one above. *)
Lemma on_next_returning (S : Subscriber T E D) v
    (o : distinct_until_changed_observer T D) :
  ThrowingDest.on_next (S := ThrowingDest.returning S) ne v o
  = on_next ne v o.
Proof.
  unfold ThrowingDest.on_next, on_next. cbn.
  destruct (Maybe.empty (remembered o)); [reflexivity|].
  destruct (Maybe.get (remembered o)) as [x|]; [|reflexivity].
  now destruct (ne v x) as [[]|].
Qed.

End Throwing.

(** X8: the slot is reset before the downstream is called.  When [v] is
    due to be passed on and [dest.on_next(v)] throws, the exception leaves
    [on_next] with [v] already remembered; if [v] compares equal to
    itself, offering [v] again returns without calling the downstream, so
    the downstream never receives it. *)
Theorem X8_value_is_remembered_although_downstream_threw
    (T E D : Type) (ne : T -> T -> raised E bool)
    (S : ThrowingDest.ThrowingSubscriber T E D)
    (v : T) (e : E) (d' : D) (o : distinct_until_changed_observer T D) :
  Maybe.empty (remembered o) = true
  \/ (exists x, Maybe.get (remembered o) = Got x /\ ne v x = Ret true) ->
  ThrowingDest.try_on_next v (dest o) = Unwound e d' ->
  ne v v = Ret false ->
  ThrowingDest.on_next ne v o
    = Unwound e (DistinctUntilChanged.Observer d' (Maybe.of_value v))
  /\ ThrowingDest.on_next ne v (DistinctUntilChanged.Observer d' (Maybe.of_value v))
    = Done (DistinctUntilChanged.Observer d' (Maybe.of_value v)).
Proof.
  intros Hdue Hthrow Hvv. split.
  - unfold ThrowingDest.on_next. rewrite Hthrow.
    destruct Hdue as [Hm | (x & Hx & Hne)].
    + now rewrite Hm.
    + destruct o as [d [[] s]]; cbn in *; [|discriminate].
      injection Hx as ->. now rewrite Hne.
  - unfold ThrowingDest.on_next. cbn. now rewrite Hvv.
Qed.

Lemma X8_downstream_threw_witness :
  ThrowingDest.on_next (S := failing_recorder) Z_ne 7 (call [])
    = Unwound "downstream failed"%string
        (DistinctUntilChanged.Observer [] (Maybe.of_value 7))
  /\ ThrowingDest.on_next (S := failing_recorder) Z_ne 7
       (DistinctUntilChanged.Observer [] (Maybe.of_value 7))
    = Done (DistinctUntilChanged.Observer [] (Maybe.of_value 7)).
Proof.
  apply (X8_value_is_remembered_although_downstream_threw
           Z string _ Z_ne failing_recorder 7 "downstream failed"%string [] (call []));
    [left; reflexivity | reflexivity | reflexivity].
Defined.



(** ** Copies of a [maybe] *)

(** X9: copy construction never aborts and yields an object equal to the
    original; move construction never aborts, yields an object equal to
    the original and leaves the original empty. *)
Theorem X9_maybe_copy_and_move_keep_the_value :
  forall (T : Type) (m : maybe T),
    MaybeCopy.copy_construct m = Got m
    /\ MaybeCopy.move_construct m = Got (m, Maybe.default).
Proof. intros T [[] s]; [|destruct s]; split; reflexivity. Qed.

(* ===================================================================== *)
(** * Argument resolution *)
(* ===================================================================== *)

Import ArgResolver.

Section VariadicFacts.
Context {Ty V : Type} (type_of : V -> Ty) (P : Ty -> bool).
Implicit Types (an args : list V) (D : V).

Lemma select_arg_lookup args : forall N Index,
  Variadic.select_arg N Index args
  = if (Index <=? N)%nat then args !! (N - Index)%nat else None.
Proof.
  induction args as [|ga gan IH]; intros N Index; cbn [Variadic.select_arg].
  - now destruct (Index <=? N)%nat.
  - destruct (Nat.eqb_spec Index N) as [->|Hne].
    + now rewrite Nat.leb_refl, Nat.sub_diag.
    + rewrite IH. destruct (Nat.leb_spec Index N) as [Hle|Hgt].
      * destruct (Nat.leb_spec (S Index) N) as [_|?]; [|lia].
        replace (N - Index)%nat with (S (N - S Index)) by lia. reflexivity.
      * destruct (Nat.leb_spec (S Index) N) as [?|_]; [lia|reflexivity].
Qed.

Lemma arg_resolver_n_find an : forall N,
  Variadic.arg_resolver_n (N + length an) N P (type_of <$> an)
  = Some (match list_find (fun a => P (type_of a) = true) an with
          | Some (i, _) => Variadic.this_type (N + i)
          | None => Variadic.terminal
          end).
Proof.
  induction an as [|a an IH]; intros N.
  - cbn. now rewrite Nat.add_0_r, Nat.eqb_refl.
  - cbn [fmap list_fmap length Variadic.arg_resolver_n list_find].
    replace (N + S (length an))%nat with (S N + length an)%nat by lia.
    rewrite IH. destruct (P (type_of a)) eqn:Ha; case_decide; try congruence.
    + now rewrite Nat.add_0_r.
    + destruct (list_find _ an) as [[i b]|]; cbn; [|reflexivity].
      do 2 f_equal. lia.
Qed.

Lemma resolve_arg_find D an :
  Variadic.resolve_arg type_of P D an
  = Some (match list_find (fun a => P (type_of a) = true) an with
          | Some (i, a) => Resolved (Z.of_nat i) true a
          | None => Resolved (-1) false D
          end).
Proof.
  unfold Variadic.resolve_arg, Variadic.arg_resolver.
  pose proof (arg_resolver_n_find an 0) as Hn. cbn [Nat.add] in Hn.
  rewrite length_fmap, Hn.
  destruct (list_find _ an) as [[i a]|] eqn:Hfind; [|reflexivity].
  apply list_find_Some in Hfind as (Hi & _ & _).
  cbn. now rewrite select_arg_lookup, Nat.sub_0_r, Hi.
Qed.

Lemma find_is_head_accepted an :
  snd <$> list_find (fun a => P (type_of a) = true) an
  = head (accepted type_of P an).
Proof.
  induction an as [|a an IH]; [reflexivity|].
  cbn [list_find]. unfold accepted in *. cbn [List.filter].
  destruct (P (type_of a)) eqn:Ha; case_decide; try congruence; [reflexivity|].
  rewrite <- IH. now destruct (list_find _ an) as [[]|].
Qed.

Lemma accepted_Permutation an an' :
  an ≡ₚ an' -> accepted type_of P an ≡ₚ accepted type_of P an'.
Proof.
  unfold accepted. induction 1 as [|a l l' _ IH|a b l|l l' l'' _ IH1 _ IH2]; cbn.
  - reflexivity.
  - destruct (P (type_of a)); [now constructor | exact IH].
  - destruct (P (type_of a)), (P (type_of b)); try reflexivity. apply perm_swap.
  - now transitivity (List.filter (fun a => P (type_of a)) l').
Qed.

Lemma short_Permutation (l l' : list V) :
  l ≡ₚ l' -> (length l <= 1)%nat -> l = l'.
Proof.
  intros Hp Hlen. destruct l as [|a [|b l]]; cbn in Hlen; [| |lia].
  - now apply Permutation_nil_l in Hp.
  - now apply Permutation_singleton_l in Hp.
Qed.

(** With at most one accepted argument, what is resolved does not depend
    on where the argument stands. *)
Lemma resolve_arg_Permutation D an an' :
  an ≡ₚ an' -> (length (accepted type_of P an) <= 1)%nat ->
  exists r r',
    Variadic.resolve_arg type_of P D an = Some r
    /\ Variadic.resolve_arg type_of P D an' = Some r'
    /\ is_arg r = is_arg r' /\ value r = value r'.
Proof.
  intros Hp Hlen. rewrite !resolve_arg_find. do 2 eexists.
  split; [reflexivity|]. split; [reflexivity|].
  pose proof (find_is_head_accepted an) as H.
  pose proof (find_is_head_accepted an') as H'.
  rewrite <- (short_Permutation _ _ (accepted_Permutation _ _ Hp) Hlen) in H'.
  rewrite <- H in H'.
  destruct (list_find _ an) as [[i a]|], (list_find _ an') as [[i' a']|];
    cbn in H'; try discriminate; [|now split].
  injection H' as ->. now split.
Qed.

End VariadicFacts.

(** X10: [select_arg<N, Index>::get(args...)] returns the argument at
    position [N - Index]; no call is well-formed when [Index] is beyond
    [N] or the arguments are too few.  So [select_arg<n, 0>::get] picks
    argument [n]. *)
Theorem X10_select_arg_picks_the_nth_argument :
  forall (V : Type) (N Index : nat) (args : list V),
    Variadic.select_arg N Index args
    = (if (Index <=? N)%nat then args !! (N - Index)%nat else None)
    /\ Variadic.select_arg N 0 args = args !! N.
Proof.
  intros V N Index args. split; [apply select_arg_lookup|].
  now rewrite select_arg_lookup, Nat.sub_0_r.
Qed.

(** X11: with variadic templates [resolve_arg] always yields a resolver.
    It stands for the first argument whose type the predicate accepts:
    [is_arg] is true, [n] is the position of that argument, [value] is the
    argument, and no argument before it is accepted.  When no argument is
    accepted, [is_arg] is false, [n] is -1 and [value] is the default. *)
Theorem X11_variadic_resolve_arg_takes_the_first_match :
  forall (Ty V : Type) (type_of : V -> Ty) (P : Ty -> bool) (D : V) (an : list V),
  exists r,
    Variadic.resolve_arg type_of P D an = Some r
    /\ ((is_arg r = true
         /\ exists i : nat,
              n r = Z.of_nat i /\ an !! i = Some (value r)
              /\ P (type_of (value r)) = true
              /\ forall j a, (j < i)%nat -> an !! j = Some a -> P (type_of a) = false)
        \/ (is_arg r = false /\ n r = -1 /\ value r = D
            /\ forall a, a ∈ an -> P (type_of a) = false)).
Proof.
  intros Ty V type_of P D an. rewrite resolve_arg_find. eexists. split; [reflexivity|].
  destruct (list_find _ an) as [[i a]|] eqn:Hfind.
  - left. apply list_find_Some in Hfind as (Hi & Ha & Hfirst).
    split; [reflexivity|]. exists i. repeat split; auto.
    intros j b Hj Hb. specialize (Hfirst j b Hb Hj).
    now destruct (P (type_of b)).
  - right. repeat split.
    intros a Ha. eapply list_find_None, Forall_forall in Hfind; [|exact Ha].
    now destruct (P (type_of a)).
Qed.

(** ** Six slots *)

(** At most six arguments, taken one by one. *)
Ltac split_args an :=
  destruct an as [|? [|? [|? [|? [|? [|? [|? ?]]]]]]].

(** The predicate decided on every argument in sight. *)
Ltac case_predicates P :=
  repeat match goal with
         | |- context [P (?f ?a)] => is_var a; destruct (P (f a)) eqn:?
         end.

Ltac unfold_six :=
  cbv [NonVariadic.resolve_arg NonVariadic.arg_resolver
       NonVariadic.arg_resolver_n_5 NonVariadic.arg_resolver_n_4
       NonVariadic.arg_resolver_n_3 NonVariadic.arg_resolver_n_2
       NonVariadic.arg_resolver_n_1 NonVariadic.arg_resolver_n_0
       NonVariadic.arg_resolver_n_minus1].

(** X12: without variadic templates, [resolve_arg] called with at most
    six arguments, and a predicate that rejects [tag_unresolvable],
    stands for the last argument whose type the predicate accepts:
    [is_arg] is true, [n] is its position, [value] is the argument, and no
    argument after it is accepted.  When no argument is accepted,
    [is_arg] is false, [n] is -1 and [value] is the default. *)
Theorem X12_six_slot_resolve_arg_takes_the_last_match
    (Ty V : Type) (type_of : V -> Ty) (P : Ty -> bool) (D u : V) (an : list V) :
  (length an <= 6)%nat ->
  P (type_of u) = false ->
  exists r,
    NonVariadic.resolve_arg type_of P D u an = Some r
    /\ ((is_arg r = true
         /\ exists i : nat,
              n r = Z.of_nat i /\ an !! i = Some (value r)
              /\ P (type_of (value r)) = true
              /\ forall j a, (i < j)%nat -> an !! j = Some a -> P (type_of a) = false)
        \/ (is_arg r = false /\ n r = -1 /\ value r = D
            /\ forall a, a ∈ an -> P (type_of a) = false)).
Proof.
  intros Hlen Hu. split_args an; cbn [length] in Hlen; try lia;
    unfold_six; rewrite ?Hu; case_predicates P;
    (eexists; split; [reflexivity|]); cbn [is_arg n value];
    first
      [ right; repeat split; intros a Ha;
        repeat (apply elem_of_cons in Ha as [-> | Ha]; [assumption|]);
        now apply elem_of_nil in Ha
      | left; split; [reflexivity|];
        match goal with
        | |- exists i : nat, ?k = Z.of_nat i /\ _ =>
            let i := eval vm_compute in (Z.to_nat k) in exists i
        end;
        repeat split; try assumption;
        intros j b Hlt Hj;
        do 7 (destruct j as [|j]; [try lia; cbn in Hj; congruence|]);
        cbn in Hj; discriminate ].
Qed.

Lemma X12_six_slot_witness :
  exists r,
    NonVariadic.resolve_arg example_type_of is_scheduler (type_scheduler, 0)
      (type_unresolvable, 0) [(type_int, 5); (type_scheduler, 1); (type_scheduler, 2)]
    = Some r
    /\ ((is_arg r = true
         /\ exists i : nat,
              n r = Z.of_nat i
              /\ [(type_int, 5); (type_scheduler, 1); (type_scheduler, 2)] !! i
                 = Some (value r)
              /\ is_scheduler (example_type_of (value r)) = true
              /\ forall j a, (i < j)%nat ->
                   [(type_int, 5); (type_scheduler, 1); (type_scheduler, 2)] !! j = Some a ->
                   is_scheduler (example_type_of a) = false)
        \/ (is_arg r = false /\ n r = -1 /\ value r = (type_scheduler, 0)
            /\ forall a, a ∈ [(type_int, 5); (type_scheduler, 1); (type_scheduler, 2)] ->
                 is_scheduler (example_type_of a) = false)).
Proof.
  apply (X12_six_slot_resolve_arg_takes_the_last_match
           example_type (example_type * Z) example_type_of is_scheduler).
  - cbn. lia.
  - reflexivity.
Defined.

(** X13: the two builds agree whenever the predicate accepts at most one
    of the (at most six) arguments and rejects [tag_unresolvable]: the
    six-slot [resolve_arg] returns what the variadic one returns. *)
Theorem X13_builds_agree_on_a_single_match
    (Ty V : Type) (type_of : V -> Ty) (P : Ty -> bool) (D u : V) (an : list V) :
  (length an <= 6)%nat ->
  P (type_of u) = false ->
  (length (accepted type_of P an) <= 1)%nat ->
  NonVariadic.resolve_arg type_of P D u an = Variadic.resolve_arg type_of P D an.
Proof.
  intros Hlen Hu Hone. split_args an; cbn [length] in Hlen; try lia;
    unfold accepted in Hone; revert Hone; unfold_six;
    cbv [Variadic.resolve_arg Variadic.arg_resolver Variadic.arg_resolver_n
         Variadic.construct Variadic.select_arg fmap list_fmap length Nat.eqb];
    cbn [List.filter]; rewrite ?Hu; case_predicates P;
    cbn [length]; intros Hone; solve [reflexivity | lia].
Qed.

Lemma X13_builds_agree_witness :
  NonVariadic.resolve_arg example_type_of is_scheduler (type_scheduler, 0)
    (type_unresolvable, 0) [(type_int, 5); (type_scheduler, 1); (type_int, 6)]
  = Variadic.resolve_arg example_type_of is_scheduler (type_scheduler, 0)
      [(type_int, 5); (type_scheduler, 1); (type_int, 6)].
Proof.
  apply (X13_builds_agree_on_a_single_match
           example_type (example_type * Z) example_type_of is_scheduler).
  - cbn. lia.
  - reflexivity.
  - cbn. lia.
Defined.

(** X14: the two builds differ as soon as the predicate accepts two of
    the arguments: the variadic [resolve_arg] stands for an accepted
    argument at a lower position than the six-slot one does. *)
Theorem X14_builds_differ_on_two_matches
    (Ty V : Type) (type_of : V -> Ty) (P : Ty -> bool) (D u : V) (an : list V) :
  (length an <= 6)%nat ->
  P (type_of u) = false ->
  (2 <= length (accepted type_of P an))%nat ->
  exists r r',
    Variadic.resolve_arg type_of P D an = Some r
    /\ NonVariadic.resolve_arg type_of P D u an = Some r'
    /\ is_arg r = true /\ is_arg r' = true
    /\ n r < n r'.
Proof.
  intros Hlen Hu Htwo. split_args an; cbn [length] in Hlen; try lia;
    unfold accepted in Htwo; revert Htwo; unfold_six;
    cbv [Variadic.resolve_arg Variadic.arg_resolver Variadic.arg_resolver_n
         Variadic.construct Variadic.select_arg fmap list_fmap length Nat.eqb];
    cbn [List.filter]; rewrite ?Hu; case_predicates P;
    cbn [length]; intros Htwo; try lia;
    (do 2 eexists; repeat split; reflexivity).
Qed.

Lemma X14_builds_differ_witness :
  exists r r',
    Variadic.resolve_arg example_type_of is_scheduler (type_scheduler, 0)
      [(type_scheduler, 1); (type_int, 5); (type_scheduler, 2)] = Some r
    /\ NonVariadic.resolve_arg example_type_of is_scheduler (type_scheduler, 0)
         (type_unresolvable, 0)
         [(type_scheduler, 1); (type_int, 5); (type_scheduler, 2)] = Some r'
    /\ is_arg r = true /\ is_arg r' = true
    /\ n r < n r'.
Proof.
  apply (X14_builds_differ_on_two_matches
           example_type (example_type * Z) example_type_of is_scheduler).
  - cbn. lia.
  - reflexivity.
  - cbn. lia.
Defined.

(** The chain is resolved tag by tag, in the order of the chain. *)
Lemma resolve_arg_set_each
    (Ty V : Type) (type_of : V -> Ty) (tags : list (tag Ty V)) (an : list V) :
  exists rs,
    Variadic.resolve_arg_set type_of tags an = Some rs
    /\ Forall2 (fun t r =>
                  Variadic.resolve_arg type_of (predicate t) (default_type t) an = Some r)
               tags rs.
Proof.
  induction tags as [|t tags (rs & Hrs & Hall)].
  - exists []. split; [reflexivity | constructor].
  - cbn [Variadic.resolve_arg_set]. rewrite Hrs.
    destruct (Variadic.resolve_arg type_of (predicate t) (default_type t) an) as [r|] eqn:Hr.
    + exists (r :: rs). split; [reflexivity|]. now constructor.
    + rewrite resolve_arg_find in Hr. discriminate.
Qed.

Lemma resolve_arg_set_Permutation
    (Ty V : Type) (type_of : V -> Ty) (tags : list (tag Ty V)) (an an' : list V) :
  an ≡ₚ an' ->
  Forall (fun t => (length (accepted type_of (predicate t) an) <= 1)%nat) tags ->
  exists rs rs',
    Variadic.resolve_arg_set type_of tags an = Some rs
    /\ Variadic.resolve_arg_set type_of tags an' = Some rs'
    /\ is_arg <$> rs = is_arg <$> rs'
    /\ value <$> rs = value <$> rs'.
Proof.
  intros Hp Hone. induction Hone as [|t tags Ht _ IH].
  - exists [], []. repeat split.
  - destruct IH as (rs & rs' & Hrs & Hrs' & His & Hval).
    destruct (resolve_arg_Permutation type_of (predicate t) (default_type t) an an' Hp Ht)
      as (r & r' & Hr & Hr' & Hisr & Hvalr).
    exists (r :: rs), (r' :: rs'). cbn [Variadic.resolve_arg_set].
    rewrite Hr, Hr', Hrs, Hrs'. cbn. rewrite His, Hval, Hisr, Hvalr.
    repeat split.
Qed.

(** X15: [resolve_arg_set] always yields a tuple, whose entries are, tag
    by tag and in the order of the chain, what [resolve_arg] yields for
    that tag's predicate and default on the same arguments; and when every
    tag's predicate accepts at most one of the arguments, reordering the
    arguments changes neither the [is_arg] nor the [value] of any entry. *)
Theorem X15_resolve_arg_set_resolves_each_tag_in_order :
  forall (Ty V : Type) (type_of : V -> Ty) (tags : list (tag Ty V)) (an : list V),
  exists rs,
    Variadic.resolve_arg_set type_of tags an = Some rs
    /\ Forall2 (fun t r =>
                  Variadic.resolve_arg type_of (predicate t) (default_type t) an = Some r)
               tags rs
    /\ forall an',
         an ≡ₚ an' ->
         Forall (fun t => (length (accepted type_of (predicate t) an) <= 1)%nat) tags ->
         exists rs',
           Variadic.resolve_arg_set type_of tags an' = Some rs'
           /\ is_arg <$> rs = is_arg <$> rs'
           /\ value <$> rs = value <$> rs'.
Proof.
  intros Ty V type_of tags an.
  destruct (resolve_arg_set_each Ty V type_of tags an) as (rs & Hrs & Hall).
  exists rs. split; [exact Hrs|]. split; [exact Hall|].
  intros an' Hp Hone.
  destruct (resolve_arg_set_Permutation Ty V type_of tags an an' Hp Hone)
    as (rs1 & rs' & Hrs1 & Hrs' & His & Hval).
  rewrite Hrs in Hrs1. injection Hrs1 as <-. now exists rs'.
Qed.

Lemma X15_resolve_arg_set_witness :
  exists rs rs',
    Variadic.resolve_arg_set example_type_of
      [MkTag is_scheduler (type_scheduler, 0); MkTag is_int (type_int, 0)]
      [(type_int, 5); (type_scheduler, 1)] = Some rs
    /\ Variadic.resolve_arg_set example_type_of
         [MkTag is_scheduler (type_scheduler, 0); MkTag is_int (type_int, 0)]
         [(type_scheduler, 1); (type_int, 5)] = Some rs'
    /\ is_arg <$> rs = is_arg <$> rs'
    /\ value <$> rs = value <$> rs'.
Proof.
  destruct (X15_resolve_arg_set_resolves_each_tag_in_order
              example_type (example_type * Z) example_type_of
              [MkTag is_scheduler (type_scheduler, 0); MkTag is_int (type_int, 0)]
              [(type_int, 5); (type_scheduler, 1)]) as (rs & Hrs & _ & Hperm).
  destruct (Hperm [(type_scheduler, 1); (type_int, 5)]) as (rs' & Hrs' & His & Hval).
  - apply perm_swap.
  - repeat constructor; cbn; lia.
  - exists rs, rs'. repeat split; assumption.
Defined.
